(** * Authority deduplication: normaliser, homoglyph resolver, blocking keys,
      cluster table and link generator

    A shallow embedding of [modules/homoglyph.py], [auth_normalize_table.py]
    and [auth_deduplication.py].

    A Python [str] is a sequence of Unicode code points, so a string is a
    [list N] here; a [set] of characters is used by the code only through
    membership, emptiness of an intersection and inclusion, which are written
    with [existsb] and [forallb] over the listed characters. *)

From Stdlib Require Import String Ascii NArith ZArith List Bool Lia Sorted.
Import ListNotations.
Open Scope N_scope.
Open Scope list_scope.

(* ================================================================= *)
(** * Python strings *)

Module Py.

Definition char := N.
Definition str := list char.

(** An ASCII literal as a Python string. *)
Definition lit (s : string) : str := map N_of_ascii (list_ascii_of_string s).

Definition str_eqb (a b : str) : bool :=
  if list_eq_dec N.eq_dec a b then true else false.

(** [c in s], for a set or a string [s] of characters. *)
Definition mem (c : char) (s : str) : bool := existsb (N.eqb c) s.

(** [bool(set(word) & s)]: the intersection is not empty. *)
Definition intersects (word s : str) : bool := existsb (fun c => mem c s) word.

(** [set(word).issubset(s)]. *)
Definition issubset (word s : str) : bool := forallb (fun c => mem c s) word.

(** [str.maketrans(a, b)] for two strings of equal length and
    [str.translate]: a dictionary from code point to code point; a key that
    is listed twice keeps its last value, so the pairs are searched from the
    last one. *)
Definition maketrans (a b : str) : list (char * char) := rev (combine a b).

Fixpoint table_get (t : list (char * char)) (c : char) : char :=
  match t with
  | [] => c
  | (k, v) :: t' => if c =? k then v else table_get t' c
  end.

Definition translate (t : list (char * char)) (s : str) : str :=
  map (table_get t) s.

(** [dict.get(c, c)] for a dictionary from a character to a string, joined
    over the characters of a string. *)
Fixpoint dict_get (d : list (char * str)) (c : char) : str :=
  match d with
  | [] => [c]
  | (k, v) :: d' => if c =? k then v else dict_get d' c
  end.

(** [s.startswith(p)]. *)
Fixpoint startswith (p s : str) : bool :=
  match p, s with
  | [], _ => true
  | a :: p', b :: s' => (a =? b) && startswith p' s'
  | _ :: _, [] => false
  end.

(** [text.replace(old, new, 1)]: the leftmost occurrence only. *)
Fixpoint replace1 (old new text : str) : str :=
  if startswith old text then new ++ skipn (length old) text
  else match text with
       | [] => []
       | c :: r => c :: replace1 old new r
       end.

(** [str.isspace] on one character, which is also the class [\s] of [re] on
    a [str] pattern and the set removed by [str.strip()]. *)
Definition isspace (c : char) : bool :=
  ((0x09 <=? c) && (c <=? 0x0D)) || ((0x1C <=? c) && (c <=? 0x20))
  || (c =? 0x85) || (c =? 0xA0) || (c =? 0x1680)
  || ((0x2000 <=? c) && (c <=? 0x200A))
  || (c =? 0x2028) || (c =? 0x2029) || (c =? 0x202F) || (c =? 0x205F)
  || (c =? 0x3000).

Fixpoint lstrip (s : str) : str :=
  match s with
  | [] => []
  | c :: r => if isspace c then lstrip r else s
  end.

Fixpoint rstrip (s : str) : str :=
  match s with
  | [] => []
  | c :: r => match rstrip r with
              | [] => if isspace c then [] else [c]
              | r' => c :: r'
              end
  end.

(** [s.strip()]. *)
Definition strip (s : str) : str := rstrip (lstrip s).

(** [a <= b] on strings: code point by code point. *)
Fixpoint str_leb (a b : str) : bool :=
  match a, b with
  | [], _ => true
  | _ :: _, [] => false
  | x :: a', y :: b' => (x <? y) || ((x =? y) && str_leb a' b')
  end.

(** [c.isascii() and c.isalpha()]. *)
Definition isascii_alpha (c : char) : bool :=
  ((0x41 <=? c) && (c <=? 0x5A)) || ((0x61 <=? c) && (c <=? 0x7A)).

(** [c.upper()] and [c.lower()] for an ASCII character. *)
Definition ascii_upper (c : char) : char :=
  if (0x61 <=? c) && (c <=? 0x7A) then c - 0x20 else c.

Definition ascii_lower (c : char) : char :=
  if (0x41 <=? c) && (c <=? 0x5A) then c + 0x20 else c.

(** [0-9] in a character class. *)
Definition is_ascii_digit (c : char) : bool := (0x30 <=? c) && (c <=? 0x39).

(** [s.split(sep)] for a separator of one character, and its form for a
    class of separators: the pieces between the separators, empty ones
    included. *)
Fixpoint split_by (is_sep : char -> bool) (s : str) : list str :=
  match s with
  | [] => [[]]
  | c :: r =>
      if is_sep c then [] :: split_by is_sep r
      else match split_by is_sep r with
           | piece :: pieces => (c :: piece) :: pieces
           | [] => [[c]]
           end
  end.

Definition nonempty (s : str) : bool :=
  match s with [] => false | _ :: _ => true end.

(** [s.split()]: the pieces between runs of white space, none empty. *)
Definition split_ws (s : str) : list str := filter nonempty (split_by isspace s).

(** [sep.join(pieces)]. *)
Fixpoint join (sep : str) (pieces : list str) : str :=
  match pieces with
  | [] => []
  | [x] => x
  | x :: rest => x ++ sep ++ join sep rest
  end.

(** The results of a comprehension whose body can raise: the error of the
    first body that raises, [None] here. *)
Fixpoint all_some {A : Type} (l : list (option A)) : option (list A) :=
  match l with
  | [] => Some []
  | None :: _ => None
  | Some x :: l' => option_map (cons x) (all_some l')
  end.

End Py.

(* ================================================================= *)
(** * Regular expressions, by derivatives *)

Module Re.
Import Py.

Inductive regex : Type :=
| Void : regex
| Eps : regex
| Chr : char -> regex
| Cls : (char -> bool) -> regex
| Alt : regex -> regex -> regex
| Cat : regex -> regex -> regex
| Star : regex -> regex.

Fixpoint nullable (r : regex) : bool :=
  match r with
  | Void => false
  | Eps => true
  | Chr _ => false
  | Cls _ => false
  | Alt a b => nullable a || nullable b
  | Cat a b => nullable a && nullable b
  | Star _ => true
  end.

Fixpoint deriv (c : char) (r : regex) : regex :=
  match r with
  | Void => Void
  | Eps => Void
  | Chr k => if c =? k then Eps else Void
  | Cls p => if p c then Eps else Void
  | Alt a b => Alt (deriv c a) (deriv c b)
  | Cat a b => if nullable a then Alt (Cat (deriv c a) b) (deriv c b)
               else Cat (deriv c a) b
  | Star a => Cat (deriv c a) (Star a)
  end.

(** The whole of [s] is a word of [r]. *)
Definition fullmatch (r : regex) (s : str) : bool :=
  nullable (fold_left (fun r c => deriv c r) s r).

Definition Opt (r : regex) : regex := Alt r Eps.
Definition Plus (r : regex) : regex := Cat r (Star r).

(** [r{0,n}]. *)
Fixpoint Upto (n : nat) (r : regex) : regex :=
  match n with
  | O => Eps
  | S n' => Opt (Cat r (Upto n' r))
  end.

(** [r{n}]. *)
Fixpoint Rep (n : nat) (r : regex) : regex :=
  match n with
  | O => Eps
  | S n' => Cat r (Rep n' r)
  end.

(** [re.match(r'^...$', s)]: [$] stands at the end of the string and also
    just before a newline that ends it. *)
Definition match_to_end (r : regex) (s : str) : bool :=
  fullmatch r s
  || match rev s with
     | c :: p => (c =? 0x0A) && fullmatch r (rev p)
     | [] => false
     end.

(** A literal word. *)
Fixpoint Lit (s : str) : regex :=
  match s with
  | [] => Eps
  | c :: s' => Cat (Chr c) (Lit s')
  end.

(** The words of a pattern. *)
Inductive lang : regex -> str -> Prop :=
| lang_eps : lang Eps []
| lang_chr c : lang (Chr c) [c]
| lang_cls p c : p c = true -> lang (Cls p) [c]
| lang_alt_l a b s : lang a s -> lang (Alt a b) s
| lang_alt_r a b s : lang b s -> lang (Alt a b) s
| lang_cat a b s t : lang a s -> lang b t -> lang (Cat a b) (s ++ t)
| lang_star_nil a : lang (Star a) []
| lang_star_more a s t : lang a s -> lang (Star a) t -> lang (Star a) (s ++ t).

(** An ASCII literal as a pattern. *)
Definition ch (s : string) : regex := Lit (lit s).

End Re.

(* ================================================================= *)
(** * modules/homoglyph.py *)

Module Homoglyph.
Import Py Re.

Definition cyrillic_chars : str :=
  [0x406; 0x456; 0x410; 0x430; 0x412; 0x415; 0x435; 0x41A; 0x41C; 0x41D;
   0x41E; 0x43E; 0x420; 0x440; 0x421; 0x441; 0x422; 0x443; 0x425; 0x445].

Definition latin_chars : str := lit "IiAaBEeKMHOoPpCcTyXx".

Definition full_cyrillic : str :=
  [0x410; 0x430; 0x411; 0x431; 0x412; 0x432; 0x413; 0x433; 0x414; 0x434;
   0x415; 0x435; 0x404; 0x454; 0x416; 0x436; 0x417; 0x437; 0x406; 0x456;
   0x42B; 0x44B; 0x418; 0x438; 0x424; 0x444; 0x419; 0x439; 0x41A; 0x43A;
   0x41B; 0x43B; 0x41C; 0x43C; 0x41D; 0x43D; 0x41E; 0x43E; 0x41F; 0x43F;
   0x420; 0x440; 0x421; 0x441; 0x422; 0x442; 0x423; 0x443; 0x424; 0x444;
   0x425; 0x445; 0x426; 0x446; 0x427; 0x447; 0x428; 0x448; 0x429; 0x449;
   0x42D; 0x44D; 0x42E; 0x44E; 0x42F; 0x44F; 0x407; 0x457; 0x42C; 0x44C].

Definition full_latin : str :=
  lit "AaBbCcDdEeFfGgHhIiJjKkLlMmNnOoPpQqRrSsTtUuVvWwXxYyZz".

Definition roman_numerals : str := lit "CDMXLVI".

(** [a.difference(b)]. *)
Definition difference (a b : str) : str := filter (fun c => negb (mem c b)) a.

Definition special_cyrillic : str := difference full_cyrillic cyrillic_chars.
Definition special_latin : str := difference full_latin latin_chars.

Definition is_valid_alphabet_mix (word : str) : bool :=
  negb (intersects word full_cyrillic && intersects word full_latin).

Definition highlight_mismatched_chars (word : str) : str :=
  flat_map (fun c =>
    (if mem c latin_chars then lit "<f>" ++ [c] ++ lit "</f>" else [])
    ++ (if mem c cyrillic_chars then lit "<u>" ++ [c] ++ lit "</u>" else []))
    word.

Definition convert_to_latin (word : str) : str :=
  translate (maketrans cyrillic_chars latin_chars) word.

Definition convert_to_cyrillic (word : str) : str :=
  translate (maketrans latin_chars cyrillic_chars) word.

(** One Roman numeral:
    [(?:M{0,4})(?:CM|CD|D?C{0,3})(?:XC|XL|L?X{0,3})(?:IX|IV|V?I{0,3})]. *)
Definition roman_group : regex :=
  Cat (Upto 4 (ch "M"))
 (Cat (Alt (ch "CM") (Alt (ch "CD") (Cat (Opt (ch "D")) (Upto 3 (ch "C")))))
 (Cat (Alt (ch "XC") (Alt (ch "XL") (Cat (Opt (ch "L")) (Upto 3 (ch "X")))))
      (Alt (ch "IX") (Alt (ch "IV") (Cat (Opt (ch "V")) (Upto 3 (ch "I"))))))).

Section Words.

(** [str.isalnum] on one character, from the Unicode database of the
    interpreter; [\w] of [re] on a [str] pattern is this class and [_]. *)
Variable isalnum : char -> bool.

Definition is_w (c : char) : bool := isalnum c || (c =? 0x5F).

(** [word_pattern.findall(text)] for [(\w[\w']*\w|\w)]: scanning from the
    left, a match starts at a word character, runs over word characters and
    apostrophes as far as it can and gives back the apostrophes after its
    last word character. [cur] is the match being read, with the apostrophes
    seen since its last word character. *)
Fixpoint scan_words (cur : option (str * str)) (s : str) : list str :=
  match s with
  | [] => match cur with Some (w, _) => [w] | None => [] end
  | c :: r =>
      match cur with
      | None => if is_w c then scan_words (Some ([c], [])) r
                else scan_words None r
      | Some (w, pend) =>
          if is_w c then scan_words (Some (w ++ pend ++ [c], [])) r
          else if c =? 0x27 then scan_words (Some (w, pend ++ [c])) r
          else w :: scan_words None r
      end
  end.

Definition findall_words (text : str) : list str := scan_words None text.

(** [re.fullmatch(r'(\W|\b)(G)+(\b)', s)] with [G] the group above: the
    string opens with one non-word character or at a word boundary, and it
    closes at a word boundary, that is on a word character. *)
Definition roman_fullmatch (s : str) : bool :=
  match s with
  | [] => false
  | c :: r =>
      is_w (last s c)
      && (if is_w c then fullmatch (Plus roman_group) s
          else fullmatch (Plus roman_group) r)
  end.

(** The body of the loop of [fix_homoglyph_errors] for one word. *)
Definition fix_word (text word : str) : str :=
  if is_valid_alphabet_mix word then text
  else if issubset word roman_numerals
          && roman_fullmatch (convert_to_latin word)
  then replace1 word (convert_to_latin word) text
  else if intersects word special_cyrillic && intersects word latin_chars
          && negb (intersects word special_latin)
  then replace1 word (convert_to_cyrillic word) text
  else if intersects word special_latin && intersects word cyrillic_chars
          && negb (intersects word special_cyrillic)
  then
    let text1 := replace1 word (convert_to_latin word) text in
    let max_latin_count := length (filter (fun c => mem c latin_chars) word) in
    let max_cyrillic_count :=
      length (filter (fun c => mem c cyrillic_chars) word) in
    if Nat.ltb max_cyrillic_count max_latin_count
    then replace1 word (highlight_mismatched_chars word) text1
    else text1
  else text.

Definition fix_homoglyph_errors (text : str) : str :=
  fold_left fix_word (findall_words text) text.

End Words.

Definition highlight_mismatched_in_context (word : str) : str :=
  flat_map (fun c =>
    (if mem c latin_chars then lit "<mf>" ++ [c] ++ lit "</mf>" else [])
    ++ (if mem c cyrillic_chars then lit "<mu>" ++ [c] ++ lit "</mu>"
        else []))
    word.

(** A character with a twin in the other alphabet. *)
Definition is_homoglyph (c : char) : bool :=
  mem c latin_chars || mem c cyrillic_chars.

End Homoglyph.

(* ================================================================= *)
(** * auth_normalize_table.py *)

Module Normalize.
Import Py Re.

(** No key is listed twice in the two dictionaries below. *)
Definition char_conversion : list (char * str) :=
  [(0xC6, lit "AE"); (0xE6, lit "ae");
   (0x152, lit "OE"); (0x153, lit "oe");
   (0x110, lit "D"); (0x111, lit "d");
   (0xD0, lit "D"); (0xF0, lit "d");
   (0x131, lit "i");
   (0x1A0, lit "O"); (0x1A1, lit "o");
   (0x1AF, lit "U"); (0x1B0, lit "u");
   (0xD8, lit "O"); (0xF8, lit "o");
   (0xDE, lit "TH"); (0xFE, lit "th");
   (0xDF, lit "SS");
   (0xA9, []); (0x2117, []); (0xAE, []);
   (0x2122, []); (0xB0, []); (0xB1, []); (0x2030, [])].

Definition punctuation_rules : list (char * str) :=
  [(0x21, lit " "); (0x22, lit " "); (0x27, []); (0x28, lit " ");
   (0x29, lit " ");
   (0x2D, lit "-"); (0x5B, []); (0x5D, []); (0x7B, lit " "); (0x7D, lit " ");
   (0x3C, lit " "); (0x3E, lit " "); (0x3B, lit " "); (0x3A, lit " ");
   (0x2E, lit ".");
   (0x3F, lit " "); (0xBF, lit " "); (0xA1, lit " "); (0x2C, lit " ");
   (0x2F, lit " ");
   (0x5C, lit " "); (0x40, lit "@"); (0x26, lit "&"); (0x2A, lit " ");
   (0x7C, lit " ");
   (0x25, lit " "); (0x3D, lit " "); (0x2B, lit "+"); (0x2212, lit "-");
   (0x2124, lit " ");
   (0xD7, lit "x"); (0xF7, lit "/"); (0x2018, lit " "); (0x2019, lit " ");
   (0x201B, lit " ");
   (0x201C, lit " "); (0x201D, lit " "); (0x201E, lit " "); (0x2027, lit " ");
   (0xB7, lit " ")].

Definition chars_to_delete : str := [0x2BE; 0x2BF; 0xB7].

Definition superscript_map : list (char * char) :=
  maketrans [0x2070; 0xB9; 0xB2; 0xB3; 0x2074; 0x2075; 0x2076; 0x2077;
             0x2078; 0x2079] (lit "0123456789").

Definition subscript_map : list (char * char) :=
  maketrans [0x2080; 0x2081; 0x2082; 0x2083; 0x2084; 0x2085; 0x2086; 0x2087;
             0x2088; 0x2089] (lit "0123456789").

(** [re.sub(r"\s+", " ", text)]; [inrun] says that the character before
    was white space, already replaced. *)
Fixpoint sub_spaces (inrun : bool) (s : str) : str :=
  match s with
  | [] => []
  | c :: r =>
      if isspace c
      then (if inrun then sub_spaces true r else 0x20 :: sub_spaces true r)
      else c :: sub_spaces false r
  end.

(** The class [[\x00-\x1F\x7F]]. *)
Definition is_control (c : char) : bool := (c <=? 0x1F) || (c =? 0x7F).

Definition clean_text (text : str) : str :=
  match strip text with
  | [] => []
  | _ :: _ =>
      let text := translate superscript_map text in
      let text := translate subscript_map text in
      let text := flat_map (dict_get char_conversion) text in
      let text := filter (fun c => negb (mem c chars_to_delete)) text in
      let text := flat_map (dict_get punctuation_rules) text in
      let text := strip (sub_spaces false text) in
      filter (fun c => negb (is_control c)) text
  end.

(** What the three tables and the deletion make of one character: the
    steps of [clean_text] before the white space is collapsed work
    character by character. *)
Definition char_pipeline (c : char) : str :=
  flat_map (dict_get punctuation_rules)
    (filter (fun c => negb (mem c chars_to_delete))
       (dict_get char_conversion
          (table_get subscript_map (table_get superscript_map c)))).

(** The characters listed in the tables. *)
Definition table_chars : str :=
  map fst superscript_map ++ map fst subscript_map
  ++ map fst char_conversion ++ chars_to_delete
  ++ map fst punctuation_rules.

(** A character that a second run leaves alone. *)
Definition fixed_char (c : char) : bool :=
  str_eqb (char_pipeline c) [c] && negb (is_control c).

(** The two kinds of character that a second run treats differently: the
    division sign, which becomes a slash that the same table turns into a
    space, and a control character that is not white space, which is
    removed after the white space around it was collapsed. *)
Definition unstable_char (c : char) : bool :=
  (c =? 0xF7) || (is_control c && negb (isspace c)).

(** White space in [s] is single spaces, none at the start when [inrun]. *)
Fixpoint tidy (inrun : bool) (s : str) : bool :=
  match s with
  | [] => true
  | c :: r =>
      if isspace c then (c =? 0x20) && negb inrun && tidy true r
      else tidy false r
  end.

(** The characters [re.sub(r"[^0-9\-?]", "", date_text)] keeps. *)
Definition date_char (c : char) : bool :=
  is_ascii_digit c || (c =? 0x2D) || (c =? 0x3F).

Section Digits.

(** The class [\d] of [re] on a [str] pattern: the decimal digits of the
    Unicode database of the interpreter. *)
Variable isdecimal : char -> bool.

Definition digit : regex := Cls isdecimal.

Definition is_valid_isni (isni : str) : bool :=
  match_to_end
    (Cat (Rep 15 digit) (Cls (fun c => isdecimal c || (c =? 0x58)))) isni.

(** The three patterns of [normalize_dates]. *)
Definition year_or_range : regex :=
  Cat (Rep 4 digit) (Opt (Cat (Chr 0x2D) (Rep 4 digit))).
Definition year_open : regex := Cat (Rep 4 digit) (Opt (Chr 0x2D)).
Definition year_uncertain : regex := Cat (Rep 4 digit) (Chr 0x3F).

Definition normalize_dates (date_text : str) : str :=
  match strip date_text with
  | [] => []
  | _ :: _ =>
      let date_text := filter date_char date_text in
      if match_to_end year_or_range date_text then date_text
      else if match_to_end year_open date_text then date_text
      else if match_to_end year_uncertain date_text
      then removelast date_text
      else []
  end.

(** The characters [re.sub(r"[^\dXx]", "", isni)] keeps. *)
Definition isni_char (c : char) : bool :=
  isdecimal c || (c =? 0x58) || (c =? 0x78).

Definition normalize_isni (isni : str) : str :=
  match isni with
  | [] => []
  | _ :: _ =>
      let isni := filter isni_char isni in
      if is_valid_isni isni then isni else []
  end.

(** Fifteen decimal digits and then a digit or an upper-case X. *)
Definition isni_shape (s : str) : Prop :=
  exists digits final,
    s = digits ++ [final] /\ length digits = 15%nat
    /\ forallb isdecimal digits = true
    /\ (isdecimal final = true \/ final = 0x58).

End Digits.

(** The allow-list of the specification for dates, on the characters that
    are kept: a shape and the value returned for it. [YYYY] is four of the
    digits 0 to 9. *)
Definition year (y : str) : Prop :=
  length y = 4%nat /\ forallb is_ascii_digit y = true.

Inductive date_shape : str -> str -> Prop :=
| shape_year y : year y -> date_shape y y
| shape_range y1 y2 :
    year y1 -> year y2 ->
    date_shape (y1 ++ [0x2D] ++ y2) (y1 ++ [0x2D] ++ y2)
| shape_open y : year y -> date_shape (y ++ [0x2D]) (y ++ [0x2D])
| shape_uncertain y : year y -> date_shape (y ++ [0x3F]) y.

(** The characters the first steps of [clean_text] replace or delete. *)
Definition removed_chars : str :=
  map fst superscript_map ++ map fst subscript_map
  ++ map fst char_conversion ++ chars_to_delete.

(** [convert_to_initials]: [part[0]] raises [IndexError] on an empty
    part, which is [None] here. *)
Definition part_initial (part : str) : option str :=
  match part with
  | [] => None
  | c :: _ => Some [c; 0x2E]
  end.

Definition word_initials (word : str) : option str :=
  option_map (join (lit "-"))
             (all_some (map part_initial (split_by (N.eqb 0x2D) word))).

Definition convert_to_initials (forename : str) : option str :=
  match forename with
  | [] => Some []
  | _ :: _ =>
      option_map (join (lit " "))
                 (all_some (map word_initials (split_ws forename)))
  end.

(** [extract_lang]; the field number is the text of the tag. *)
Definition extract_lang (subfield_8 field_100a field_num : str)
  : option str :=
  if nonempty subfield_8 && Nat.eqb (length subfield_8) 3
  then Some subfield_8
  else if (str_eqb field_num (lit "200") || str_eqb field_num (lit "400"))
          && nonempty field_100a
  then Some (firstn 3 (skipn 9 field_100a))
  else None.

(** [re.search(r"[a-zA-Z]", s)] and [re.search(r"[\u0400-\u04FF]", s)]. *)
Definition has_latin (s : str) : bool := existsb isascii_alpha s.
Definition has_cyrillic (s : str) : bool :=
  existsb (fun c => (0x400 <=? c) && (c <=? 0x4FF)) s.

Definition ukrainian_marks : str :=
  [0x27; 0x49; 0x69; 0x406; 0x456; 0x407; 0x457; 0x404; 0x454].
Definition russian_marks : str :=
  [0x42A; 0x44A; 0x42D; 0x44D; 0x42B; 0x44B; 0x401; 0x451].

(** [lang in allowed], for a language that can be [None]. *)
Definition lang_in (lang : option str) (allowed : list str) : bool :=
  match lang with
  | Some l => existsb (str_eqb l) allowed
  | None => false
  end.

(** [process_language]: the three names and the language it returns, and
    whether it logged its warning. *)
Definition process_language (entryname initials given_name : str)
    (lang : option str) : (str * str * str * option str) * bool :=
  if has_latin entryname || has_latin initials || has_latin given_name
  then
    let entryname := Homoglyph.convert_to_latin entryname in
    let initials := Homoglyph.convert_to_latin initials in
    let given_name := Homoglyph.convert_to_latin given_name in
    if negb (lang_in lang [lit "eng"; lit "pol"; lit "fra"])
    then ((entryname, initials, given_name, Some (lit "eng")), false)
    else ((entryname, initials, given_name, lang), false)
  else if has_cyrillic entryname || has_cyrillic initials
          || has_cyrillic given_name
  then
    let entryname := Homoglyph.convert_to_cyrillic entryname in
    let initials := Homoglyph.convert_to_cyrillic initials in
    let given_name := Homoglyph.convert_to_cyrillic given_name in
    if negb (lang_in lang [lit "ukr"; lit "rus"])
    then
      if existsb (fun c => mem c ukrainian_marks) entryname
      then ((entryname, initials, given_name, Some (lit "ukr")), false)
      else if existsb (fun c => mem c russian_marks) entryname
      then ((entryname, initials, given_name, Some (lit "rus")), false)
      else ((entryname, initials, given_name, Some []), true)
    else ((entryname, initials, given_name, lang), false)
  else ((entryname, initials, given_name, lang), false).

End Normalize.

(* ================================================================= *)
(** * auth_deduplication.py *)

Module Dedup.
Import Py.

(** ** Blocking keys *)

Section Blocking.

(** Three functions the script imports: [jellyfish.soundex],
    [transliterate.translit(text, language_code, reversed=True)] and
    [str.lower]. *)
Variable soundex : str -> str.
Variable translit : str -> str -> str.
Variable lower : str -> str.

Definition lang_map : list (str * str) :=
  [(lit "rus", lit "ru"); (lit "ukr", lit "uk"); (lit "bul", lit "bg")].

(** [lang_map.get(k, "ru")]. *)
Fixpoint lang_map_get (m : list (str * str)) (k : str) : str :=
  match m with
  | [] => lit "ru"
  | (k', v) :: m' => if str_eqb k k' then v else lang_map_get m' k
  end.

Definition custom_cyrillic_function (entryname lang : str) : str :=
  match entryname, lang with
  | first :: _, _ :: _ =>
      let lc := lang_map_get lang_map (lower lang) in
      let transliterated := translit entryname lc in
      let code := soundex transliterated in
      match code with
      | _ :: code_tail => first :: code_tail
      | [] => []
      end
  | _, _ => []
  end.

Definition blocking_key_udf (entryname lang : str) : str :=
  match entryname with
  | [] => []
  | c :: _ =>
      if isascii_alpha c then soundex entryname
      else custom_cyrillic_function entryname lang
  end.

End Blocking.

(** ** The table of name rows *)

(** A row of [df_clusters]: a row of [authsource_normalized] joined with the
    usage count of its authority record, with the cluster id given by the
    clustering. [field] is 200 for the main heading, 400 for a variant and
    700 for a linked heading; [lang] is [None] where the column is NULL,
    and [used_count] is [None] where the LEFT JOIN found no count. *)
Record Row : Type := mkRow {
  id : Z;
  auth_id : Z;
  source_authid : str;
  server_id : Z;
  field : Z;
  lang : option str;
  cluster_id : Z;
  used_count : option Z;
  full_name : str
}.

Inductive field_kind : Type := MAIN | VARIANT | LINKED.

(** The field numbers [normalize_authority_data] reads, in its order. *)
Definition field_num (k : field_kind) : Z :=
  match k with MAIN => 200 | VARIANT => 400 | LINKED => 700 end.

(** ** Clustering *)

(** [linker.clustering.cluster_pairwise_predictions_at_threshold] belongs to
    the splink package. Its result lists every record of the input table
    with a cluster id, the smallest record id of its connected component in
    the graph of the retained pairs, found here by repeated relabelling of
    each record with the smallest label among its neighbours. *)
Definition label_of (t : list (Z * Z)) (n : Z) : Z :=
  match find (fun p => Z.eqb (fst p) n) t with
  | Some p => snd p
  | None => n
  end.

Definition relabel (edges : list (Z * Z)) (t : list (Z * Z)) : list (Z * Z) :=
  map (fun p =>
         (fst p,
          fold_left (fun m e =>
                       if Z.eqb (fst e) (fst p) then Z.min m (label_of t (snd e))
                       else if Z.eqb (snd e) (fst p)
                            then Z.min m (label_of t (fst e))
                            else m)
                    edges (snd p)))
      t.

Fixpoint relabel_n (k : nat) (edges t : list (Z * Z)) : list (Z * Z) :=
  match k with
  | O => t
  | S k' => relabel_n k' edges (relabel edges t)
  end.

Definition cluster_pairwise_predictions_at_threshold
    (df_norm : list Row) (retained : list (Z * Z)) : list Row :=
  let labels :=
    relabel_n (length df_norm) retained (map (fun r => (id r, id r)) df_norm) in
  map (fun r =>
         mkRow (id r) (auth_id r) (source_authid r) (server_id r) (field r)
               (lang r) (label_of labels (id r)) (used_count r) (full_name r))
      df_norm.

(** The rows inserted into [authsource_clusters]: one for each row of
    [df_clusters]. *)
Definition cluster_results (df_clusters : list Row) : list (Z * Z) :=
  map (fun row => (auth_id row, cluster_id row)) df_clusters.

(** ** Link generation *)

(** One line of a server's link file: the merge URL is made of the domain
    and the two source authority ids, and the line carries the cluster id
    and the two display names. *)
Record MergeLink : Type := mkLink {
  link_domain : str;
  link_main : str;
  link_other : str;
  link_cluster : Z;
  link_main_name : str;
  link_other_name : str
}.

Section Frames.

Context {K : Type}.
Variable leb : K -> K -> bool.

(** A stable sort: [x] is put before the first element it is not above. *)
Fixpoint insert_sorted {A : Type} (key : A -> K) (x : A) (l : list A) : list A :=
  match l with
  | [] => [x]
  | y :: l' => if leb (key x) (key y) then x :: l
               else y :: insert_sorted key x l'
  end.

(** [df.sort_values(key)]. *)
Definition sort_values {A : Type} (key : A -> K) (l : list A) : list A :=
  fold_right (insert_sorted key) [] l.

Variable eqb : K -> K -> bool.

(** [df.drop_duplicates(key, keep='first')]. *)
Fixpoint drop_duplicates {A : Type} (key : A -> K) (seen : list K) (l : list A)
  : list A :=
  match l with
  | [] => []
  | x :: l' =>
      if existsb (eqb (key x)) seen then drop_duplicates key seen l'
      else x :: drop_duplicates key (key x :: seen) l'
  end.

(** [df.groupby(key, sort=True)]: the groups in the order of their keys,
    each with its rows in the order of the frame; a row whose key is missing
    is in no group. *)
Definition groupby {A : Type} (key : A -> option K) (df : list A)
  : list (K * list A) :=
  let keys :=
    drop_duplicates (fun k => k) []
      (sort_values (fun k => k)
         (flat_map (fun r => match key r with Some k => [k] | None => [] end)
                   df)) in
  map (fun k =>
         (k, filter (fun r => match key r with
                              | Some k' => eqb k' k
                              | None => false
                              end) df))
      keys.

End Frames.

Definition pair_leb (a b : Z * str) : bool :=
  Z.ltb (fst a) (fst b) || (Z.eqb (fst a) (fst b) && str_leb (snd a) (snd b)).

Definition pair_eqb (a b : Z * str) : bool :=
  Z.eqb (fst a) (fst b) && str_eqb (snd a) (snd b).

(** [cluster.sort_values(['source_authid', 'field'])] and
    [drop_duplicates('source_authid', keep='first')]. *)
Definition authid_field_leb (a b : str * Z) : bool :=
  (str_leb (fst a) (fst b) && negb (str_eqb (fst a) (fst b)))
  || (str_eqb (fst a) (fst b) && Z.leb (snd a) (snd b)).

Definition unique_members (cluster : list Row) : list Row :=
  drop_duplicates str_eqb source_authid []
    (sort_values authid_field_leb (fun r => (source_authid r, field r))
                 cluster).

(** A number as a 64-bit integer: one that does not fit wraps around. *)
Definition to_int64 (z : Z) : Z := ((z + 2 ^ 63) mod 2 ^ 64 - 2 ^ 63)%Z.

(** [column.astype(int)]: pandas raises on a column with a missing value,
    [None] here. *)
Definition astype_int (column : list (option Z)) : option (list Z) :=
  all_some (map (option_map to_int64) column).

(** [unique['used_count'].astype(int).max()], for the converted column. *)
Definition max_used_count (counts : list Z) : Z :=
  match counts with
  | [] => 0%Z
  | c :: l => fold_left Z.max l c
  end.

(** The main record: [tied.sort_values('id').iloc[0]]. [None] is an
    exception: the one of [astype] when a count is missing, or the one of
    [iloc[0]] on an empty frame. *)
Definition main_record (unique : list Row) : option Row :=
  match astype_int (map used_count unique) with
  | None => None
  | Some counts =>
      let max_uc := max_used_count counts in
      let tied :=
        filter (fun r => match used_count r with
                         | Some u => Z.eqb (to_int64 u) max_uc
                         | None => false
                         end) unique in
      hd_error (sort_values Z.leb id tied)
  end.

(** The body of the loop over the groups of one server: the lines it adds,
    or [None] when it raises. *)
Definition group_links (dom : str) (cid : Z) (cluster : list Row)
  : option (list MergeLink) :=
  if Nat.ltb (length cluster) 2 then Some []
  else
    let unique := unique_members cluster in
    if Nat.ltb (length unique) 2 then Some []
    else
      match main_record unique with
      | None => None
      | Some main =>
          let others :=
            filter (fun r => negb (str_eqb (source_authid r)
                                           (source_authid main))) unique in
          Some (map (fun rec =>
                       mkLink dom (source_authid main) (source_authid rec)
                              cid (full_name main) (full_name rec))
                    others)
      end.

(** [srv_map.get(srv)]. *)
Definition srv_map_get (srv_map : list (Z * str)) (srv : Z) : option str :=
  option_map snd (find (fun p => Z.eqb (fst p) srv) srv_map).

(** The merge lines of one server, before they are sorted, freed of
    repeated lines and written; [None] when a group raises, and then
    nothing is written for the server. *)
Definition server_links (srv_map : list (Z * str)) (srv : Z)
    (srv_grp : list Row) : option (list MergeLink) :=
  let srv_grp :=
    filter (fun r => Z.eqb (field r) 200 || Z.eqb (field r) 400) srv_grp in
  match srv_grp with
  | [] => Some []
  | _ :: _ =>
      match srv_map_get srv_map srv with
      | None | Some [] => Some []
      | Some dom =>
          option_map (@concat MergeLink)
            (all_some
               (map (fun g => group_links dom (fst (fst g)) (snd g))
                  (groupby pair_leb pair_eqb
                     (fun r => option_map (fun l => (cluster_id r, l))
                                          (lang r))
                     srv_grp)))
      end
  end.

(** What a run of [generate_links] leaves: the merge lines of each server
    it went through, and whether it was stopped by an exception. *)
Record Outcome : Type := mkOutcome {
  link_files : list (Z * list MergeLink);
  raised : bool
}.

(** The loop over the servers: an exception in one server ends the run,
    after the files of the servers before it were written. *)
Fixpoint servers_loop (srv_map : list (Z * str))
    (groups : list (Z * list Row)) : Outcome :=
  match groups with
  | [] => mkOutcome [] false
  | g :: rest =>
      match server_links srv_map (fst g) (snd g) with
      | None => mkOutcome [] true
      | Some links =>
          let run := servers_loop srv_map rest in
          mkOutcome ((fst g, links) :: link_files run) (raised run)
      end
  end.

Definition generate_links (df_clusters : list Row) (srv_map : list (Z * str))
  : Outcome :=
  servers_loop srv_map
    (groupby Z.leb Z.eqb (fun r => Some (server_id r)) df_clusters).

(** ** The columns made before the matching *)

Section Years.

(** The class [\d], as in the normaliser. *)
Variable isdecimal : char -> bool.

Definition four_digits (s : str) : bool :=
  Nat.eqb (length (firstn 4 s)) 4 && forallb isdecimal (firstn 4 s).

(** [dates.str.extract(r'(\d{4})')[0]]: the first four digits in a row,
    [None] for NaN. *)
Fixpoint year_of_birth (dates : str) : option str :=
  match dates with
  | [] => None
  | _ :: rest =>
      if four_digits dates then Some (firstn 4 dates) else year_of_birth rest
  end.

(** [dates.str.extract(r'-(\d{4})')[0]]: the first four digits in a row
    that follow a hyphen. *)
Fixpoint year_of_death (dates : str) : option str :=
  match dates with
  | [] => None
  | c :: rest =>
      if (c =? 0x2D) && four_digits rest then Some (firstn 4 rest)
      else year_of_death rest
  end.

End Years.

End Dedup.

(* ================================================================= *)
(** * The imported packages, on the inputs of the examples *)

Module Packages.
Import Py.

(** [str.lower] on the ASCII letters. *)
Definition lower (s : str) : str := map ascii_lower s.

(** The digit class of an upper-case letter in [jellyfish.soundex]. *)
Definition soundex_class (c : char) : option char :=
  if mem c (lit "BFPV") then Some 0x31
  else if mem c (lit "CGJKQSXZ") then Some 0x32
  else if mem c (lit "DT") then Some 0x33
  else if mem c (lit "L") then Some 0x34
  else if mem c (lit "MN") then Some 0x35
  else if mem c (lit "R") then Some 0x36
  else None.

Definition same_class (a b : option char) : bool :=
  match a, b with
  | Some x, Some y => x =? y
  | None, None => true
  | _, _ => false
  end.

(** The loop of [jellyfish.soundex] over the letters after the first:
    a letter of a class other than the last one adds its digit, [H] and [W]
    keep the last class, any other letter forgets it; the loop stops at four
    characters and the code is padded with zeros. *)
Fixpoint soundex_loop (letters : str) (last : option char) (count : nat)
  : str :=
  match letters with
  | [] => repeat 0x30 (4 - count)
  | letter :: rest =>
      match soundex_class letter with
      | Some sub =>
          if same_class (Some sub) last
          then soundex_loop rest (Some sub) count
          else sub :: (if Nat.eqb (S count) 4 then []
                       else soundex_loop rest (Some sub) (S count))
      | None =>
          soundex_loop rest
            (if (letter =? 0x48) || (letter =? 0x57) then last else None)
            count
      end
  end.

(** [jellyfish.soundex], with the NFKD normalisation and the upper-casing
    it starts with taken on ASCII text, where the first changes nothing. *)
Definition soundex (s : str) : str :=
  match map ascii_upper s with
  | [] => []
  | first :: rest => first :: soundex_loop rest (soundex_class first) 1
  end.

(** [transliterate.translit(text, "uk", reversed=True)] on the letters on
    which the romanisations agree; any other character, and any other
    language pack, leaves the text as it is here. *)
Definition uk_reversed : list (char * str) :=
  [(0x430, lit "a"); (0x431, lit "b"); (0x432, lit "v"); (0x434, lit "d");
   (0x435, lit "e"); (0x437, lit "z"); (0x43A, lit "k"); (0x43B, lit "l");
   (0x43C, lit "m"); (0x43D, lit "n"); (0x43E, lit "o"); (0x43F, lit "p");
   (0x440, lit "r"); (0x441, lit "s"); (0x442, lit "t"); (0x443, lit "u");
   (0x444, lit "f"); (0x410, lit "A"); (0x411, lit "B"); (0x412, lit "V");
   (0x414, lit "D"); (0x415, lit "E"); (0x417, lit "Z"); (0x41A, lit "K");
   (0x41B, lit "L"); (0x41C, lit "M"); (0x41D, lit "N"); (0x41E, lit "O");
   (0x41F, lit "P"); (0x420, lit "R"); (0x421, lit "S"); (0x422, lit "T");
   (0x423, lit "U"); (0x424, lit "F"); (0x436, lit "zh"); (0x445, lit "kh");
   (0x446, lit "ts"); (0x447, lit "ch"); (0x448, lit "sh");
   (0x449, lit "shch"); (0x416, lit "Zh"); (0x425, lit "Kh");
   (0x426, lit "Ts"); (0x427, lit "Ch"); (0x428, lit "Sh");
   (0x429, lit "Shch")].

Definition translit (text language_code : str) : str :=
  if str_eqb language_code (lit "uk")
  then flat_map (dict_get uk_reversed) text
  else text.

(** The two names of the end-to-end scenario of the specification. *)
Definition Shevchenko_cyrillic : str :=
  [0x428; 0x435; 0x432; 0x447; 0x435; 0x43D; 0x43A; 0x43E].
Definition Shevchenko_latin : str := lit "Shevchenko".

End Packages.

(* ================================================================= *)
(** * Small tables for the examples *)

Module Examples.
Import Py Dedup.

Definition name_row (i : Z) (authid : string) (srv fld : Z) (lg : string)
    (cid used : Z) (name : string) : Row :=
  mkRow i (100 + i) (lit authid) srv fld (Some (lit lg)) cid (Some used)
        (lit name).

(** Three name rows of three authority records; only the first two are
    paired by the matcher. *)
Definition three_rows : list Row :=
  [name_row 1 "a1" 1 200 "ukr" 0 5 "Shevchenko T.";
   name_row 2 "a2" 1 200 "ukr" 0 2 "Shevchenko Taras";
   name_row 3 "a3" 1 200 "ukr" 0 1 "Franko I."].

(** A cluster of one server and one language: a main heading and the
    variant heading of another record. *)
Definition main_and_variant : list Row :=
  [name_row 1 "a1" 1 200 "ukr" 1 5 "Shevchenko T.";
   name_row 2 "a2" 1 400 "ukr" 1 2 "Shevchenko Taras"].

(** The same with a third record that has a linked heading only. *)
Definition with_linked_only : list Row :=
  main_and_variant ++ [name_row 3 "a3" 1 700 "ukr" 1 9 "Shevchenko T. H."].

(** Two records with the same usage count. *)
Definition tied_rows : list Row :=
  [name_row 7 "a7" 1 200 "ukr" 1 4 "Lesia Ukrainka";
   name_row 4 "a4" 1 200 "ukr" 1 4 "Ukrainka L.";
   name_row 9 "a9" 1 200 "ukr" 1 3 "Ukrainka Lesia"].

Definition one_server : list (Z * str) := [(1%Z, lit "lib.example.org")].

(** Two servers that use the same source authority id: on server 1 the
    record a3 has a linked heading only, on server 2 another record a3 has
    a main heading. *)
Definition shared_authid : list Row :=
  with_linked_only
  ++ [name_row 11 "a3" 2 200 "ukr" 1 1 "Shevchenko T. H.";
      name_row 12 "b1" 2 200 "ukr" 1 3 "Shevchenko Taras H."].

Definition two_servers : list (Z * str) :=
  [(1%Z, lit "lib.example.org"); (2%Z, lit "other.example.org")].

(** An authority record with a main and a variant heading, and a second
    record; the matcher pairs the variant with the second record only. *)
Definition two_headings : list Row :=
  [mkRow 1 100 (lit "a1") 1 200 (Some (lit "ukr")) 0 (Some 5)
         (lit "Shevchenko T.");
   mkRow 2 100 (lit "a1") 1 400 (Some (lit "ukr")) 0 (Some 5)
         (lit "Szewczenko T.");
   mkRow 3 200 (lit "a2") 1 200 (Some (lit "pol")) 0 (Some 2)
         (lit "Szewczenko Taras")]%Z.

(** Two records of one group, the first without a usage count. *)
Definition missing_count : list Row :=
  [mkRow 7 107 (lit "a7") 1 200 (Some (lit "ukr")) 1 None
         (lit "Lesia Ukrainka");
   name_row 4 "a4" 1 200 "ukr" 1 4 "Ukrainka L."]%Z.

(** Two records of one group, the second with a usage count of 2^63. *)
Definition huge_count : list Row :=
  [name_row 4 "a4" 1 200 "ukr" 1 4 "Ukrainka L.";
   name_row 9 "a9" 1 200 "ukr" 1 (2 ^ 63) "Ukrainka Lesia"]%Z.

(** [str.isalnum] on the ASCII letters and digits and on the Cyrillic
    letters from U+0400 to U+0481, for the examples. *)
Definition letters_and_digits (c : char) : bool :=
  is_ascii_digit c || isascii_alpha c || ((0x400 <=? c) && (c <=? 0x481)).

End Examples.

(* ================================================================= *)
(** * Facts about the Python strings *)

Module PyFacts.
Import Py.

Lemma mem_true_iff (c : char) (s : str) : mem c s = true <-> In c s.
Proof.
  unfold mem. rewrite existsb_exists. split.
  - intros [x [Hx Heq]]. apply N.eqb_eq in Heq. now subst.
  - intros H. exists c. split; [assumption | apply N.eqb_refl].
Qed.

Lemma mem_false_iff (c : char) (s : str) : mem c s = false <-> ~ In c s.
Proof.
  rewrite <- mem_true_iff. destruct (mem c s); split; congruence.
Qed.

Lemma intersects_false (w s : str) (c : char) :
  intersects w s = false -> In c w -> mem c s = false.
Proof.
  unfold intersects. intros H Hc.
  destruct (mem c s) eqn:E; [|reflexivity].
  assert (existsb (fun c => mem c s) w = true) as X
    by (apply existsb_exists; eauto).
  congruence.
Qed.

Lemma table_get_miss (t : list (char * char)) (c : char) :
  ~ In c (map fst t) -> table_get t c = c.
Proof.
  induction t as [|[k v] t IH]; simpl; intros H; [reflexivity|].
  destruct (N.eqb_spec c k) as [->|_]; [tauto|]. apply IH. tauto.
Qed.

Lemma maketrans_keys (a b : str) (c : char) :
  In c (map fst (maketrans a b)) -> In c a.
Proof.
  unfold maketrans. rewrite in_map_iff. intros [[k v] [<- H]].
  apply in_rev in H. simpl. eapply in_combine_l; eassumption.
Qed.

Lemma translate_miss (a b : str) (c : char) :
  ~ In c a -> table_get (maketrans a b) c = c.
Proof.
  intros H. apply table_get_miss. intros X. apply H.
  eapply maketrans_keys; eassumption.
Qed.

Lemma dict_get_miss (d : list (char * str)) (c : char) :
  ~ In c (map fst d) -> dict_get d c = [c].
Proof.
  induction d as [|[k v] d IH]; simpl; intros H; [reflexivity|].
  destruct (N.eqb_spec c k) as [->|_]; [tauto|]. apply IH. tauto.
Qed.

Lemma str_eqb_eq (a b : str) : str_eqb a b = true <-> a = b.
Proof.
  unfold str_eqb. destruct (list_eq_dec N.eq_dec a b); split; congruence.
Qed.

Lemma str_eqb_refl (a : str) : str_eqb a a = true.
Proof. now apply str_eqb_eq. Qed.

End PyFacts.

(* ================================================================= *)
(** * The homoglyph tables *)

Module HomoglyphFacts.
Import Py PyFacts Homoglyph.

(** A character that is no Cyrillic homoglyph comes back from the Cyrillic
    side as it was. *)
Lemma latin_char_roundtrip (c : char) :
  mem c cyrillic_chars = false ->
  table_get (maketrans cyrillic_chars latin_chars)
            (table_get (maketrans latin_chars cyrillic_chars) c) = c.
Proof.
  intros Hc. destruct (mem c latin_chars) eqn:Hl.
  - apply mem_true_iff in Hl. apply N.eqb_eq. clear Hc. revert c Hl.
    apply forallb_forall. reflexivity.
  - apply mem_false_iff in Hl, Hc.
    rewrite (translate_miss latin_chars cyrillic_chars c Hl).
    now apply translate_miss.
Qed.

Lemma cyrillic_char_roundtrip (c : char) :
  mem c latin_chars = false ->
  table_get (maketrans latin_chars cyrillic_chars)
            (table_get (maketrans cyrillic_chars latin_chars) c) = c.
Proof.
  intros Hc. destruct (mem c cyrillic_chars) eqn:Hl.
  - apply mem_true_iff in Hl. apply N.eqb_eq. clear Hc. revert c Hl.
    apply forallb_forall. reflexivity.
  - apply mem_false_iff in Hl, Hc.
    rewrite (translate_miss cyrillic_chars latin_chars c Hl).
    now apply translate_miss.
Qed.

(** C9. The two conversions undo each other away from the other
    alphabet's homoglyphs: a string [w] without any character of the
    Cyrillic homoglyph set is given back by [convert_to_latin] after
    [convert_to_cyrillic], and a string [v] without any character of the
    Latin homoglyph set is given back by [convert_to_cyrillic] after
    [convert_to_latin]. *)
Theorem convert_roundtrip (w v : str) :
  intersects w cyrillic_chars = false ->
  intersects v latin_chars = false ->
  convert_to_latin (convert_to_cyrillic w) = w
  /\ convert_to_cyrillic (convert_to_latin v) = v.
Proof.
  intros Hw Hv. unfold convert_to_latin, convert_to_cyrillic, translate.
  rewrite !map_map. split.
  - rewrite <- (map_id w) at 2. apply map_ext_in. intros c Hc.
    apply latin_char_roundtrip. eapply intersects_false; eassumption.
  - rewrite <- (map_id v) at 2. apply map_ext_in. intros c Hc.
    apply cyrillic_char_roundtrip. eapply intersects_false; eassumption.
Qed.

(** "Hack" comes back from Cyrillic, and the word of the Cyrillic letters
    0x416 0x430 0x440 comes back from Latin. *)
Lemma convert_roundtrip_witness :
  convert_to_latin (convert_to_cyrillic (lit "Hack")) = lit "Hack"
  /\ convert_to_cyrillic (convert_to_latin [0x416; 0x430; 0x440])
     = [0x416; 0x430; 0x440].
Proof.
  apply (convert_roundtrip (lit "Hack") [0x416; 0x430; 0x440]);
    reflexivity.
Defined.

(** A word that mixes the two alphabets holds a Cyrillic letter, and no
    Cyrillic letter is in [roman_numerals]: the test that opens the Roman
    numeral branch of [fix_homoglyph_errors] fails on every word that
    reaches it. *)
Lemma roman_branch_unreachable (word : str) :
  is_valid_alphabet_mix word = false ->
  issubset word roman_numerals = false.
Proof.
  unfold is_valid_alphabet_mix, intersects, issubset. intros H.
  apply negb_false_iff, andb_true_iff in H. destruct H as [H _].
  apply existsb_exists in H. destruct H as [c [Hc Hm]].
  destruct (forallb (fun c => mem c roman_numerals) word) eqn:E;
    [|reflexivity].
  rewrite forallb_forall in E. specialize (E c Hc).
  apply mem_true_iff in Hm.
  assert (forallb (fun c => negb (mem c roman_numerals)) full_cyrillic = true)
    as X by reflexivity.
  rewrite forallb_forall in X. specialize (X c Hm).
  rewrite E in X. discriminate.
Qed.

Section Words.
Variable isalnum : char -> bool.

(** With the Roman numeral branch never taken, the loop body is the chain
    of the two other repairs. *)
Lemma fix_word_without_roman (text word : str) :
  fix_word isalnum text word =
  if is_valid_alphabet_mix word then text
  else if intersects word special_cyrillic && intersects word latin_chars
          && negb (intersects word special_latin)
  then replace1 word (convert_to_cyrillic word) text
  else if intersects word special_latin && intersects word cyrillic_chars
          && negb (intersects word special_cyrillic)
  then
    let text1 := replace1 word (convert_to_latin word) text in
    if Nat.ltb (length (filter (fun c => mem c cyrillic_chars) word))
               (length (filter (fun c => mem c latin_chars) word))
    then replace1 word (highlight_mismatched_chars word) text1
    else text1
  else text.
Proof.
  unfold fix_word. destruct (is_valid_alphabet_mix word) eqn:E;
    [reflexivity|].
  now rewrite (roman_branch_unreachable word E).
Qed.

(** C2. The Roman numeral of the specification, the token of the three
    Cyrillic letters 0x425 0x406 0x425, is a Roman numeral once coerced to
    Latin, and [fix_homoglyph_errors] returns it as it is, not as the Latin
    "XIX"; so does the same token with a Latin I in the middle. *)
Theorem roman_token_not_coerced :
  convert_to_latin [0x425; 0x406; 0x425] = lit "XIX"
  /\ Re.fullmatch (Re.Plus roman_group) (lit "XIX") = true
  /\ fix_homoglyph_errors isalnum [0x425; 0x406; 0x425]
     = [0x425; 0x406; 0x425]
  /\ fix_homoglyph_errors isalnum [0x425; 0x49; 0x425]
     = [0x425; 0x49; 0x425].
Proof.
  split; [reflexivity|]. split; [vm_compute; reflexivity|].
  unfold fix_homoglyph_errors, findall_words, is_w.
  split; cbn [scan_words]; unfold is_w;
    destruct (isalnum 0x425); cbn [orb N.eqb Pos.eqb app scan_words];
    try destruct (isalnum 0x406); try destruct (isalnum 0x49);
    reflexivity.
Qed.

End Words.

End HomoglyphFacts.

(* ================================================================= *)
(** * The matcher accepts the words of the pattern *)

Module ReFacts.
Import Py Re.

#[local] Hint Constructors lang : core.

(** The words of the patterns the normaliser is made of. *)

Lemma lang_chr_iff (c : char) (s : str) : lang (Chr c) s <-> s = [c].
Proof. split; [inversion 1; reflexivity | intros ->; auto]. Qed.

Lemma lang_eps_iff (s : str) : lang Eps s <-> s = [].
Proof. split; [inversion 1; reflexivity | intros ->; auto]. Qed.

Lemma lang_cls_iff (p : char -> bool) (s : str) :
  lang (Cls p) s <-> exists c, s = [c] /\ p c = true.
Proof.
  split.
  - inversion 1; subst; eauto.
  - intros [c [-> H]]; auto.
Qed.

Lemma lang_cat_iff (a b : regex) (s : str) :
  lang (Cat a b) s <-> exists u v, s = u ++ v /\ lang a u /\ lang b v.
Proof.
  split.
  - inversion 1; subst; eauto.
  - intros [u [v [-> [Ha Hb]]]]; auto.
Qed.

Lemma lang_opt_iff (r : regex) (s : str) :
  lang (Opt r) s <-> lang r s \/ s = [].
Proof.
  unfold Opt. split.
  - inversion 1 as [| | |a b u Hu|a b u Hu| | |]; subst; auto.
    right. now apply lang_eps_iff.
  - intros [H| ->]; auto.
Qed.

Lemma nullable_lang (r : regex) : nullable r = true <-> lang r [].
Proof.
  induction r as [| |k|p|a IHa b IHb|a IHa b IHb|a IHa]; simpl.
  - split; [discriminate | inversion 1].
  - split; auto.
  - split; [discriminate | inversion 1].
  - split; [discriminate | inversion 1].
  - rewrite orb_true_iff, IHa, IHb. split.
    + intros [H|H]; auto.
    + inversion 1; subst; auto.
  - rewrite andb_true_iff, IHa, IHb. split.
    + intros [Ha Hb]. change (lang (Cat a b) ([] ++ [])). auto.
    + intros H. apply lang_cat_iff in H.
      destruct H as [u [v [Heq [Hu Hv]]]]. symmetry in Heq.
      apply app_eq_nil in Heq. destruct Heq as [-> ->]. auto.
  - split; auto.
Qed.

(** A non-empty word of a star starts with a non-empty word of its body. *)
Lemma lang_star_cons (a : regex) (c : char) (s : str) :
  lang (Star a) (c :: s) ->
  exists s1 s2, s = s1 ++ s2 /\ lang a (c :: s1) /\ lang (Star a) s2.
Proof.
  intros H. remember (Star a) as r eqn:Er. remember (c :: s) as w eqn:Ew.
  revert s Ew.
  induction H as [| | | | | | |a' u t Hu _ Ht IHt]; try discriminate.
  intros s Ew. injection Er as ->.
  destruct u as [|x u]; simpl in Ew.
  - now apply IHt.
  - injection Ew as -> <-. exists u, t. auto.
Qed.

Lemma deriv_lang (c : char) (r : regex) :
  forall s, lang (deriv c r) s <-> lang r (c :: s).
Proof.
  induction r as [| |k|p|a IHa b IHb|a IHa b IHb|a IHa]; simpl; intros s.
  - split; inversion 1.
  - split; inversion 1.
  - destruct (N.eqb_spec c k) as [->|Hne]; split; inversion 1; subst; auto.
    congruence.
  - destruct (p c) eqn:E; split; inversion 1; subst; auto. congruence.
  - split.
    + inversion 1; subst; [apply lang_alt_l, IHa | apply lang_alt_r, IHb];
        assumption.
    + inversion 1; subst; [apply lang_alt_l, IHa | apply lang_alt_r, IHb];
        assumption.
  - assert (forall u, lang (Cat (deriv c a) b) u -> lang (Cat a b) (c :: u))
      as Hleft.
    { inversion 1; subst. change (lang (Cat a b) ((c :: s0) ++ t)).
      constructor; [now apply IHa | assumption]. }
    assert (forall u, lang (Cat a b) (c :: u) ->
                      lang (Cat (deriv c a) b) u
                      \/ (lang a [] /\ lang (deriv c b) u)) as Hright.
    { intros u H. apply lang_cat_iff in H.
      destruct H as [u1 [u2 [Heq [H1 H2]]]].
      destruct u1 as [|x u1]; simpl in Heq.
      - right. subst u2. split; [assumption | now apply IHb].
      - injection Heq as <- ->. left. constructor; [now apply IHa|assumption].
    }
    destruct (nullable a) eqn:En.
    + split.
      * inversion 1; subst; [now apply Hleft|].
        change (lang (Cat a b) ([] ++ c :: s)).
        constructor; [now apply nullable_lang | now apply IHb].
      * intros H. destruct (Hright s H) as [H1|[_ H2]]; auto.
    + split; [apply Hleft|].
      intros H. destruct (Hright s H) as [H1|[H1 _]]; [assumption|].
      apply nullable_lang in H1. congruence.
  - split.
    + inversion 1; subst. change (lang (Star a) ((c :: s0) ++ t)).
      constructor; [now apply IHa | assumption].
    + intros H. apply lang_star_cons in H.
      destruct H as [s1 [s2 [-> [H1 H2]]]].
      constructor; [now apply IHa | assumption].
Qed.

Theorem fullmatch_lang (r : regex) (s : str) :
  fullmatch r s = true <-> lang r s.
Proof.
  unfold fullmatch. revert r.
  induction s as [|c s IH]; intros r; simpl.
  - apply nullable_lang.
  - rewrite IH. apply deriv_lang.
Qed.

Lemma lang_rep_cls (n : nat) (p : char -> bool) (s : str) :
  lang (Rep n (Cls p)) s <-> length s = n /\ forallb p s = true.
Proof.
  revert s. induction n as [|n IH]; intros s; simpl.
  - rewrite lang_eps_iff. split.
    + intros ->. auto.
    + intros [H _]. now destruct s.
  - rewrite lang_cat_iff. split.
    + intros [u [v [-> [Hu Hv]]]]. apply lang_cls_iff in Hu.
      destruct Hu as [c [-> Hc]]. apply IH in Hv. destruct Hv as [Hl Hf].
      simpl. rewrite Hc, Hl, Hf. auto.
    + intros [Hl Hf]. destruct s as [|c s]; [discriminate|].
      simpl in Hl, Hf. apply andb_true_iff in Hf. destruct Hf as [Hc Hf].
      exists [c], s. split; [reflexivity|]. split; [now apply lang_cls|].
      apply IH. split; [congruence | assumption].
Qed.

End ReFacts.

(* ================================================================= *)
(** * The validators of dates and of ISNI codes *)

Module NormalizeFacts.
Import Py PyFacts Re ReFacts Normalize.

Ltac prop_of_bool :=
  repeat match goal with
         | H : _ || _ = true |- _ => apply orb_true_iff in H; destruct H as [H|H]
         | H : _ && _ = true |- _ =>
             let H' := fresh in apply andb_true_iff in H; destruct H as [H H']
         | H : (_ <=? _) = true |- _ => apply N.leb_le in H
         | H : (_ =? _) = true |- _ => apply N.eqb_eq in H
         end.

Lemma date_char_ascii (c : char) :
  date_char c = true -> c < 128 /\ c <> 0x0A /\ isspace c = false.
Proof.
  unfold date_char, is_ascii_digit. intros H.
  assert ((48 <= c /\ c <= 57) \/ c = 45 \/ c = 63) as X
    by (prop_of_bool; lia).
  split; [lia|]. split; [lia|]. unfold isspace.
  repeat match goal with
         | |- context [?a <=? ?b] => destruct (N.leb_spec a b)
         | |- context [?a =? ?b] => destruct (N.eqb_spec a b)
         end; simpl; try reflexivity; lia.
Qed.

Lemma rstrip_nil (s : str) : rstrip s = [] -> forallb isspace s = true.
Proof.
  induction s as [|c s IH]; simpl; [reflexivity|].
  destruct (rstrip s); [|discriminate].
  destruct (isspace c); [auto | discriminate].
Qed.

Lemma lstrip_spaces (s : str) :
  forallb isspace (lstrip s) = true -> forallb isspace s = true.
Proof.
  induction s as [|c s IH]; simpl; [reflexivity|].
  destruct (isspace c) eqn:E; simpl; [auto|]. now rewrite E.
Qed.

Lemma strip_nil (s : str) : strip s = [] -> forallb isspace s = true.
Proof. intros H. now apply lstrip_spaces, rstrip_nil. Qed.

Lemma blank_keeps_nothing (s : str) :
  strip s = [] -> filter date_char s = [].
Proof.
  intros H. apply strip_nil in H. rewrite forallb_forall in H.
  induction s as [|c s IH]; simpl; [reflexivity|].
  destruct (date_char c) eqn:E.
  - apply date_char_ascii in E. destruct E as [_ [_ E]].
    rewrite (H c (or_introl eq_refl)) in E. discriminate.
  - apply IH. intros x Hx. apply H. now right.
Qed.

Lemma match_to_end_no_newline (r : regex) (s : str) :
  (forall c, In c s -> c <> 0x0A) -> match_to_end r s = fullmatch r s.
Proof.
  intros H. unfold match_to_end. destruct (rev s) as [|c p] eqn:E.
  - apply orb_false_r.
  - assert (In c s) as Hc by (apply in_rev; rewrite E; now left).
    apply H in Hc. apply N.eqb_neq in Hc. rewrite Hc. apply orb_false_r.
Qed.

Section Digits.

Variable isdecimal : char -> bool.

(** Below 128 the decimal digits are the digits 0 to 9. *)
Hypothesis isdecimal_ascii :
  forall c, c < 128 -> isdecimal c = is_ascii_digit c.

Lemma digits_of_kept (s : str) :
  forallb date_char s = true ->
  forallb isdecimal s = forallb is_ascii_digit s.
Proof.
  induction s as [|c s IH]; simpl; [reflexivity|].
  intros H. apply andb_true_iff in H. destruct H as [Hc Hs].
  apply date_char_ascii in Hc. destruct Hc as [Hc _].
  now rewrite (isdecimal_ascii c Hc), IH.
Qed.

Lemma forallb_app_true {A} (f : A -> bool) (u v : list A) :
  forallb f (u ++ v) = true -> forallb f u = true /\ forallb f v = true.
Proof. rewrite forallb_app. apply andb_true_iff. Qed.

Lemma year_of_kept (y : str) :
  forallb date_char y = true ->
  (length y = 4%nat /\ forallb isdecimal y = true) <-> year y.
Proof. intros H. unfold year. now rewrite (digits_of_kept y H). Qed.

Lemma year_or_range_iff (s : str) :
  forallb date_char s = true ->
  fullmatch (year_or_range isdecimal) s = true <->
  year s \/ exists y1 y2, year y1 /\ year y2 /\ s = y1 ++ [0x2D] ++ y2.
Proof.
  intros Hs. rewrite fullmatch_lang. unfold year_or_range, digit.
  rewrite lang_cat_iff. split.
  - intros [u [v [-> [Hu Hv]]]]. apply lang_rep_cls in Hu.
    apply forallb_app_true in Hs. destruct Hs as [Hku Hkv].
    apply (year_of_kept u Hku) in Hu.
    apply lang_opt_iff in Hv. destruct Hv as [Hv| ->].
    + right. apply lang_cat_iff in Hv.
      destruct Hv as [d [w [-> [Hd Hw]]]]. apply lang_chr_iff in Hd.
      subst d. apply lang_rep_cls in Hw.
      apply (forallb_app_true _ [0x2D] w) in Hkv. destruct Hkv as [_ Hkw].
      apply (year_of_kept w Hkw) in Hw. eauto.
    + left. now rewrite app_nil_r.
  - intros [Hy|[y1 [y2 [H1 [H2 ->]]]]].
    + exists s, []. rewrite app_nil_r. split; [reflexivity|].
      split; [apply lang_rep_cls, (year_of_kept s Hs), Hy|].
      apply lang_opt_iff. now right.
    + apply forallb_app_true in Hs. destruct Hs as [Hk1 Hk2].
      apply (forallb_app_true _ [0x2D] y2) in Hk2. destruct Hk2 as [_ Hk2].
      exists y1, ([0x2D] ++ y2). split; [reflexivity|].
      split; [apply lang_rep_cls, (year_of_kept y1 Hk1), H1|].
      apply lang_opt_iff. left. apply lang_cat_iff.
      exists [0x2D], y2. split; [reflexivity|].
      split; [now apply lang_chr_iff|].
      apply lang_rep_cls, (year_of_kept y2 Hk2), H2.
Qed.

Lemma year_open_iff (s : str) :
  forallb date_char s = true ->
  fullmatch (year_open isdecimal) s = true <->
  year s \/ exists y, year y /\ s = y ++ [0x2D].
Proof.
  intros Hs. rewrite fullmatch_lang. unfold year_open, digit.
  rewrite lang_cat_iff. split.
  - intros [u [v [-> [Hu Hv]]]]. apply lang_rep_cls in Hu.
    apply forallb_app_true in Hs. destruct Hs as [Hku Hkv].
    apply (year_of_kept u Hku) in Hu.
    apply lang_opt_iff in Hv. destruct Hv as [Hv| ->].
    + right. apply lang_chr_iff in Hv. subst v. eauto.
    + left. now rewrite app_nil_r.
  - intros [Hy|[y [Hy ->]]].
    + exists s, []. rewrite app_nil_r. split; [reflexivity|].
      split; [apply lang_rep_cls, (year_of_kept s Hs), Hy|].
      apply lang_opt_iff. now right.
    + apply forallb_app_true in Hs. destruct Hs as [Hk1 _].
      exists y, [0x2D]. split; [reflexivity|].
      split; [apply lang_rep_cls, (year_of_kept y Hk1), Hy|].
      apply lang_opt_iff. left. now apply lang_chr_iff.
Qed.

Lemma year_uncertain_iff (s : str) :
  forallb date_char s = true ->
  fullmatch (year_uncertain isdecimal) s = true <->
  exists y, year y /\ s = y ++ [0x3F].
Proof.
  intros Hs. rewrite fullmatch_lang. unfold year_uncertain, digit.
  rewrite lang_cat_iff. split.
  - intros [u [v [-> [Hu Hv]]]]. apply lang_rep_cls in Hu.
    apply forallb_app_true in Hs. destruct Hs as [Hku Hkv].
    apply (year_of_kept u Hku) in Hu.
    apply lang_chr_iff in Hv. subst v. eauto.
  - intros [y [Hy ->]].
    apply forallb_app_true in Hs. destruct Hs as [Hk1 _].
    exists y, [0x3F]. split; [reflexivity|].
    split; [apply lang_rep_cls, (year_of_kept y Hk1), Hy|].
    now apply lang_chr_iff.
Qed.

Lemma kept_date_chars (s : str) : forallb date_char (filter date_char s) = true.
Proof.
  apply forallb_forall. intros c Hc. now apply filter_In in Hc.
Qed.

(** The date validator as one chain of tests on the kept characters; the
    test for blank input changes nothing, since blank input keeps no
    character. *)
Lemma normalize_dates_chain (date_text : str) :
  normalize_dates isdecimal date_text =
  let kept := filter date_char date_text in
  if fullmatch (year_or_range isdecimal) kept then kept
  else if fullmatch (year_open isdecimal) kept then kept
  else if fullmatch (year_uncertain isdecimal) kept then removelast kept
  else [].
Proof.
  unfold normalize_dates. destruct (strip date_text) as [|c0 rest] eqn:E.
  - now rewrite (blank_keeps_nothing date_text E).
  - cbv zeta. rewrite !match_to_end_no_newline; [reflexivity| | |];
      intros x Hx; apply filter_In in Hx; now apply date_char_ascii.
Qed.

Lemma year_length (y : str) : year y -> length y = 4%nat.
Proof. now intros [H _]. Qed.

Lemma normalize_dates_of_shape (date_text out : str) :
  date_shape (filter date_char date_text) out ->
  normalize_dates isdecimal date_text = out.
Proof.
  rewrite normalize_dates_chain. cbv zeta.
  pose proof (kept_date_chars date_text) as Hk.
  set (kept := filter date_char date_text) in *. clearbody kept.
  pose proof (year_or_range_iff kept Hk) as R1.
  pose proof (year_open_iff kept Hk) as R2.
  pose proof (year_uncertain_iff kept Hk) as R3.
  intros Hs.
  destruct Hs as [y Hy|y1 y2 H1 H2|y Hy|y Hy].
  - destruct R1 as [_ R1]. rewrite R1; auto.
  - destruct R1 as [_ R1]. rewrite R1; eauto 6.
  - destruct (fullmatch (year_or_range isdecimal) _); [reflexivity|].
    destruct R2 as [_ R2]. rewrite R2; eauto.
  - destruct (fullmatch (year_or_range isdecimal) _) eqn:E1.
    { exfalso. destruct R1 as [R1 _].
      destruct (R1 eq_refl) as [Hx|[y1 [y2 [H1 [H2 Hx]]]]].
      - apply year_length in Hx, Hy. rewrite length_app, Hy in Hx.
        discriminate.
      - apply year_length in H1, H2, Hy. apply (f_equal (@length _)) in Hx.
        rewrite !length_app in Hx. simpl in Hx. unfold char in *. lia. }
    destruct (fullmatch (year_open isdecimal) _) eqn:E2.
    { exfalso. destruct R2 as [R2 _].
      destruct (R2 eq_refl) as [Hx|[y' [H' Hx]]].
      - apply year_length in Hx, Hy. rewrite length_app, Hy in Hx.
        discriminate.
      - apply app_inj_tail in Hx. destruct Hx as [_ Hx]. discriminate. }
    destruct R3 as [_ R3]. rewrite R3; eauto. apply removelast_last.
Qed.

Lemma normalize_dates_of_no_shape (date_text : str) :
  (forall out, ~ date_shape (filter date_char date_text) out) ->
  normalize_dates isdecimal date_text = [].
Proof.
  rewrite normalize_dates_chain. cbv zeta.
  pose proof (kept_date_chars date_text) as Hk.
  set (kept := filter date_char date_text) in *. clearbody kept.
  intros Hno.
  destruct (fullmatch (year_or_range isdecimal) kept) eqn:E1.
  { exfalso. apply (year_or_range_iff kept Hk) in E1.
    destruct E1 as [Hy|[y1 [y2 [H1 [H2 ->]]]]].
    - apply (Hno kept). now constructor.
    - eapply Hno. now apply shape_range. }
  destruct (fullmatch (year_open isdecimal) kept) eqn:E2.
  { exfalso. apply (year_open_iff kept Hk) in E2.
    destruct E2 as [Hy|[y [Hy ->]]].
    - apply (Hno kept). now constructor.
    - eapply Hno. now apply shape_open. }
  destruct (fullmatch (year_uncertain isdecimal) kept) eqn:E3;
    [|reflexivity].
  exfalso. apply (year_uncertain_iff kept Hk) in E3.
  destruct E3 as [y [Hy ->]]. eapply Hno. now apply shape_uncertain.
Qed.

(** C1, as the code has it. The validator first drops every character but
    the digits 0 to 9, [-] and [?]; on what is kept it is a strict
    allow-list: the shapes YYYY, YYYY-YYYY and YYYY- are returned as they
    are, YYYY? is returned without its [?], and every other shape gives the
    empty string. So "1900-1975" is returned as it is, "1900?" gives
    "1900", and "c.1900", of which "1900" is kept, gives "1900". *)
Theorem normalize_dates_allow_list (date_text : str) :
  let kept := filter date_char date_text in
  (forall out, date_shape kept out ->
               normalize_dates isdecimal date_text = out)
  /\ ((forall out, ~ date_shape kept out) ->
      normalize_dates isdecimal date_text = [])
  /\ normalize_dates isdecimal (lit "1900-1975") = lit "1900-1975"
  /\ normalize_dates isdecimal (lit "c.1900") = lit "1900"
  /\ normalize_dates isdecimal (lit "1900?") = lit "1900".
Proof.
  cbv zeta. split; [apply normalize_dates_of_shape|].
  split; [apply normalize_dates_of_no_shape|].
  assert (year (lit "1900")) as Y0 by (split; reflexivity).
  assert (year (lit "1975")) as Y1 by (split; reflexivity).
  split; [|split]; apply normalize_dates_of_shape.
  - exact (shape_range (lit "1900") (lit "1975") Y0 Y1).
  - exact (shape_year (lit "1900") Y0).
  - exact (shape_uncertain (lit "1900") Y0).
Qed.

(** ** ISNI codes *)

Lemma isni_char_no_newline (c : char) :
  isni_char isdecimal c = true -> c <> 0x0A.
Proof.
  unfold isni_char. intros H ->.
  rewrite (isdecimal_ascii 0x0A) in H by reflexivity. discriminate.
Qed.

Lemma is_valid_isni_iff (s : str) :
  (forall c, In c s -> c <> 0x0A) ->
  is_valid_isni isdecimal s = true <-> isni_shape isdecimal s.
Proof.
  intros Hs. unfold is_valid_isni, isni_shape, digit.
  rewrite (match_to_end_no_newline _ s Hs), fullmatch_lang, lang_cat_iff.
  split.
  - intros [u [v [-> [Hu Hv]]]]. apply lang_rep_cls in Hu.
    destruct Hu as [Hl Hf]. apply lang_cls_iff in Hv.
    destruct Hv as [c [-> Hc]]. exists u, c.
    repeat split; try assumption.
    apply orb_true_iff in Hc. destruct Hc as [Hc|Hc]; [now left|].
    right. now apply N.eqb_eq.
  - intros [u [c [-> [Hl [Hf Hc]]]]]. exists u, [c].
    split; [reflexivity|]. split; [now apply lang_rep_cls|].
    apply lang_cls_iff. exists c. split; [reflexivity|].
    apply orb_true_iff. destruct Hc as [Hc| ->]; [now left|now right].
Qed.

Lemma isni_shape_length (s : str) :
  isni_shape isdecimal s -> length s = 16%nat /\ last s 0 <> 0x78.
Proof.
  intros [u [c [-> [Hl [_ Hc]]]]]. rewrite length_app, Hl, last_last.
  split; [reflexivity|]. intros ->. destruct Hc as [Hc|Hc]; [|discriminate].
  rewrite (isdecimal_ascii 0x78) in Hc by reflexivity. discriminate.
Qed.

(** C10. [normalize_isni] returns the empty string or a string of sixteen
    characters, fifteen decimal digits and then a decimal digit or an
    upper-case X, never a lower-case x; it returns the empty string
    whenever what is left of the input, once every character but the
    decimal digits, X and x is dropped, is not of that shape. *)
Theorem normalize_isni_shape (isni : str) :
  let out := normalize_isni isdecimal isni in
  (out = []
   \/ (isni_shape isdecimal out /\ length out = 16%nat
       /\ last out 0 <> 0x78))
  /\ (~ isni_shape isdecimal (filter (isni_char isdecimal) isni) ->
      out = []).
Proof.
  cbv zeta. unfold normalize_isni. destruct isni as [|c0 isni]; [auto|].
  set (kept := filter (isni_char isdecimal) (c0 :: isni)).
  assert (forall c, In c kept -> c <> 0x0A) as Hk.
  { intros c Hc. apply filter_In in Hc. now apply isni_char_no_newline. }
  pose proof (is_valid_isni_iff kept Hk) as V.
  destruct (is_valid_isni isdecimal kept).
  - assert (isni_shape isdecimal kept) as Hs by now apply V.
    split; [|tauto]. right. split; [assumption|].
    now apply isni_shape_length.
  - auto.
Qed.

End Digits.

(** The two validators with the digits 0 to 9 as decimal digits. *)
Lemma normalize_dates_allow_list_witness :
  (forall c, c < 128 -> is_ascii_digit c = is_ascii_digit c)
  /\ normalize_dates is_ascii_digit (lit "1900-") = lit "1900-".
Proof.
  split; [reflexivity|].
  destruct (normalize_dates_allow_list is_ascii_digit
              (fun c _ => eq_refl) (lit "1900-")) as [H _].
  apply H. apply (shape_open (lit "1900")). split; reflexivity.
Defined.

(** C1 as it is stated fails on its own example: of "c.1900" the year is
    kept and returned. *)
Lemma normalize_dates_circa_not_empty :
  normalize_dates is_ascii_digit (lit "c.1900") <> [].
Proof. vm_compute. discriminate. Qed.

Lemma normalize_isni_shape_witness :
  (forall c, c < 128 -> is_ascii_digit c = is_ascii_digit c)
  /\ normalize_isni is_ascii_digit (lit "0000 0001 2345 678x") = [].
Proof.
  split; [reflexivity|].
  destruct (normalize_isni_shape is_ascii_digit (fun c _ => eq_refl)
              (lit "0000 0001 2345 678x")) as [_ H].
  apply H. intros [u [c [Hu [Hl [_ Hc]]]]].
  apply (f_equal (fun s => last s 0)) in Hu. rewrite last_last in Hu.
  vm_compute in Hu. subst c. destruct Hc; discriminate.
Defined.

End NormalizeFacts.

(* ================================================================= *)
(** * Blocking keys *)

Module BlockingFacts.
Import Py PyFacts Dedup.
Import Packages (Shevchenko_cyrillic, Shevchenko_latin).

Section Keys.

Variable soundex : str -> str.
Variable translit : str -> str -> str.
Variable lower : str -> str.

Abbreviation blocking_key := (blocking_key_udf soundex translit lower).

(** What the scenario takes from the packages: the name is romanised as
    "Shevchenko", whose Soundex code is S125. *)
Hypothesis translit_Shevchenko :
  translit Shevchenko_cyrillic (lit "uk") = Shevchenko_latin.
Hypothesis soundex_Shevchenko : soundex Shevchenko_latin = lit "S125".
Hypothesis lower_ukr : lower (lit "ukr") = lit "ukr".

(** C4, as the code has it. The key of the Cyrillic record is the Soundex
    code of its romanisation with the first character put back, that is
    the Cyrillic letter 0x428 and then "125", and the key of the Latin
    record is "S125": the two keys are the same after their first
    character and are not equal. *)
Theorem scenario_keys :
  blocking_key Shevchenko_cyrillic (lit "ukr") = 0x428 :: lit "125"
  /\ blocking_key Shevchenko_latin [] = lit "S125"
  /\ tl (blocking_key Shevchenko_cyrillic (lit "ukr"))
     = tl (blocking_key Shevchenko_latin [])
  /\ blocking_key Shevchenko_cyrillic (lit "ukr")
     <> blocking_key Shevchenko_latin [].
Proof.
  assert (blocking_key Shevchenko_cyrillic (lit "ukr") = 0x428 :: lit "125")
    as K1.
  { unfold blocking_key_udf, custom_cyrillic_function. simpl.
    rewrite lower_ukr. simpl.
    rewrite translit_Shevchenko, soundex_Shevchenko. reflexivity. }
  assert (blocking_key Shevchenko_latin [] = lit "S125") as K2.
  { unfold blocking_key_udf. simpl. apply soundex_Shevchenko. }
  rewrite K1, K2. repeat split. discriminate.
Qed.

(** The code keeps the first letter, upper-cased: how [jellyfish.soundex]
    starts on a name that opens with an ASCII letter. *)
Hypothesis soundex_first_letter :
  forall c rest, isascii_alpha c = true ->
                 exists code, soundex (c :: rest) = ascii_upper c :: code.

Lemma ascii_upper_alpha (c : char) :
  isascii_alpha c = true -> isascii_alpha (ascii_upper c) = true.
Proof.
  unfold isascii_alpha, ascii_upper. intros H.
  assert ((65 <= c /\ c <= 90) \/ (97 <= c /\ c <= 122)) as X.
  { apply orb_true_iff in H.
    destruct H as [H|H]; apply andb_true_iff in H; destruct H as [H1 H2];
      apply N.leb_le in H1, H2; lia. }
  destruct (N.leb_spec 97 c), (N.leb_spec c 122); simpl;
    apply orb_true_iff; [left| | |]; try lia;
    try (left; apply andb_true_iff; split; apply N.leb_le; lia).
  apply andb_true_iff; split; apply N.leb_le; lia.
Qed.

(** X20. A key of the transliteration branch is empty or starts with the
    first character of the name, which is no ASCII letter; a key of the
    phonetic branch starts with an ASCII letter. The two never meet. *)
Lemma branches_never_collide (c1 c2 : char) (r1 r2 lang1 lang2 : str) :
  isascii_alpha c1 = false -> isascii_alpha c2 = true ->
  blocking_key (c1 :: r1) lang1 <> blocking_key (c2 :: r2) lang2.
Proof.
  intros H1 H2. unfold blocking_key_udf. rewrite H1, H2.
  destruct (soundex_first_letter c2 r2 H2) as [code ->].
  unfold custom_cyrillic_function.
  destruct lang1 as [|l0 lang1]; [discriminate|].
  destruct (soundex (translit _ _)) as [|k0 code1]; [discriminate|].
  intros E. assert (c1 = ascii_upper c2) as E1 by congruence.
  rewrite E1 in H1. rewrite (ascii_upper_alpha c2 H2) in H1. discriminate.
Qed.

(** C6, as the code has it. [blocking_key] is a function of its two
    arguments, and in the phonetic branch two names whose first letters
    differ by more than their case get different keys. *)
Theorem blocking_key_deterministic
    (c1 c2 : char) (r1 r2 lang1 lang2 : str) :
  isascii_alpha c1 = true -> isascii_alpha c2 = true ->
  ascii_upper c1 <> ascii_upper c2 ->
  (forall e e' l l', e = e' -> l = l' -> blocking_key e l = blocking_key e' l')
  /\ blocking_key (c1 :: r1) lang1 <> blocking_key (c2 :: r2) lang2.
Proof.
  intros H1 H2 Hne. split; [intros; subst; reflexivity|].
  unfold blocking_key_udf. rewrite H1, H2.
  destruct (soundex_first_letter c1 r1 H1) as [code1 ->].
  destruct (soundex_first_letter c2 r2 H2) as [code2 ->].
  congruence.
Qed.

End Keys.

Lemma soundex_keeps_first_letter (c : char) (rest : str) :
  isascii_alpha c = true ->
  exists code, Packages.soundex (c :: rest) = ascii_upper c :: code.
Proof. intros _. unfold Packages.soundex. simpl. eauto. Qed.

Lemma scenario_keys_witness :
  blocking_key_udf Packages.soundex Packages.translit Packages.lower
                   Shevchenko_cyrillic (lit "ukr") = 0x428 :: lit "125".
Proof.
  apply (scenario_keys Packages.soundex Packages.translit Packages.lower);
    reflexivity.
Defined.

(** C4 as it is stated fails: the two records of the scenario do not share
    a blocking key. *)
Lemma scenario_keys_differ :
  blocking_key_udf Packages.soundex Packages.translit Packages.lower
                   Shevchenko_cyrillic (lit "ukr")
  <> blocking_key_udf Packages.soundex Packages.translit Packages.lower
                      Shevchenko_latin [].
Proof. vm_compute. discriminate. Qed.

Lemma blocking_key_deterministic_witness :
  blocking_key_udf Packages.soundex Packages.translit Packages.lower
                   (lit "Smith") []
  <> blocking_key_udf Packages.soundex Packages.translit Packages.lower
                      (lit "Taylor") [].
Proof.
  apply (blocking_key_deterministic Packages.soundex Packages.translit
           Packages.lower soundex_keeps_first_letter
           0x53 0x54 (lit "mith") (lit "aylor") [] []);
    [reflexivity | reflexivity | discriminate].
Defined.

(** C6 as it is stated fails: "smith" and "Smith" differ in their first
    letter and share the key S530. *)
Lemma first_letter_case_collides :
  hd 0 (lit "smith") <> hd 0 (lit "Smith")
  /\ blocking_key_udf Packages.soundex Packages.translit Packages.lower
                      (lit "smith") []
     = blocking_key_udf Packages.soundex Packages.translit Packages.lower
                        (lit "Smith") [].
Proof. split; [discriminate | reflexivity]. Qed.

End BlockingFacts.

(* ================================================================= *)
(** * The cluster table *)

Module ClusterFacts.
Import Py Dedup.

Lemma find_relabel (edges t : list (Z * Z)) (n : Z) :
  find (fun p => Z.eqb (fst p) n) (relabel edges t)
  = option_map
      (fun p =>
         (fst p,
          fold_left (fun m e =>
                       if Z.eqb (fst e) (fst p)
                       then Z.min m (label_of t (snd e))
                       else if Z.eqb (snd e) (fst p)
                            then Z.min m (label_of t (fst e))
                            else m)
                    edges (snd p)))
      (find (fun p => Z.eqb (fst p) n) t).
Proof.
  unfold relabel. generalize (label_of t). intros lab.
  induction t as [|p t IH]; simpl; [reflexivity|].
  destruct (Z.eqb (fst p) n); [reflexivity | apply IH].
Qed.

(** A record that is in no retained pair keeps its label. *)
Lemma isolated_fold (edges : list (Z * Z)) (lab : Z -> Z) (n m : Z) :
  (forall e, In e edges -> fst e <> n /\ snd e <> n) ->
  fold_left (fun m e =>
               if Z.eqb (fst e) n then Z.min m (lab (snd e))
               else if Z.eqb (snd e) n then Z.min m (lab (fst e)) else m)
            edges m = m.
Proof.
  revert m. induction edges as [|e edges IH]; intros m H; simpl;
    [reflexivity|].
  destruct (H e (or_introl eq_refl)) as [H1 H2].
  apply Z.eqb_neq in H1, H2. rewrite H1, H2. apply IH.
  intros e' He'. apply H. now right.
Qed.

Lemma isolated_relabel (edges t : list (Z * Z)) (n : Z) :
  (forall e, In e edges -> fst e <> n /\ snd e <> n) ->
  label_of (relabel edges t) n = label_of t n.
Proof.
  intros H. unfold label_of at 1. rewrite find_relabel.
  change (label_of t n)
    with (match find (fun p => Z.eqb (fst p) n) t with
          | Some p => snd p
          | None => n
          end).
  destruct (find (fun p => Z.eqb (fst p) n) t) as [p|] eqn:E; simpl;
    [|reflexivity].
  apply find_some in E. destruct E as [_ E]. apply Z.eqb_eq in E.
  rewrite E. now apply isolated_fold.
Qed.

Lemma isolated_relabel_n (k : nat) (edges t : list (Z * Z)) (n : Z) :
  (forall e, In e edges -> fst e <> n /\ snd e <> n) ->
  label_of (relabel_n k edges t) n = label_of t n.
Proof.
  intros H. revert t. induction k as [|k IH]; intros t; simpl;
    [reflexivity|].
  rewrite IH. now apply isolated_relabel.
Qed.

Lemma label_of_start (rows : list Row) (n : Z) :
  label_of (map (fun r => (id r, id r)) rows) n = n.
Proof.
  unfold label_of.
  destruct (find _ _) as [p|] eqn:E; [|reflexivity].
  apply find_some in E. destruct E as [Hin E]. apply Z.eqb_eq in E.
  apply in_map_iff in Hin. destruct Hin as [r [<- _]]. exact E.
Qed.

(** The label a record gets in one round is its own or the one of a
    neighbour. *)
Lemma fold_label_source (edges : list (Z * Z)) (lab : Z -> Z) (q m : Z) :
  let out :=
    fold_left (fun m e =>
                 if Z.eqb (fst e) q then Z.min m (lab (snd e))
                 else if Z.eqb (snd e) q then Z.min m (lab (fst e)) else m)
              edges m in
  out = m
  \/ exists e, In e edges /\ (out = lab (fst e) \/ out = lab (snd e)).
Proof.
  cbv zeta. revert m. induction edges as [|e edges IH]; intros m;
    [now left|]. cbn [fold_left].
  assert (forall m', (m' = m \/ m' = lab (fst e) \/ m' = lab (snd e)) ->
            let out :=
              fold_left (fun m e =>
                           if Z.eqb (fst e) q then Z.min m (lab (snd e))
                           else if Z.eqb (snd e) q
                                then Z.min m (lab (fst e)) else m)
                        edges m' in
            out = m
            \/ exists e', In e' (e :: edges)
                          /\ (out = lab (fst e') \/ out = lab (snd e'))) as X.
  { intros m' Hm'. cbv zeta. destruct (IH m') as [->|[e' [He' Ho]]].
    - destruct Hm' as [->|Hm']; [now left|]. right. exists e.
      split; [now left | assumption].
    - right. exists e'. split; [now right | assumption]. }
  destruct (Z.eqb (fst e) q).
  - apply X. destruct (Z.min_spec m (lab (snd e))) as [[_ ->]|[_ ->]]; auto.
  - destruct (Z.eqb (snd e) q).
    + apply X.
      destruct (Z.min_spec m (lab (fst e))) as [[_ ->]|[_ ->]]; auto.
    + apply X. now left.
Qed.

(** The id of a record that is in no retained pair is the label of no
    other record. *)
Lemma own_label_relabel (edges t : list (Z * Z)) (n : Z) :
  (forall e, In e edges -> fst e <> n /\ snd e <> n) ->
  (forall x, label_of t x = n -> x = n) ->
  forall x, label_of (relabel edges t) x = n -> x = n.
Proof.
  intros Hiso Inv x. unfold label_of at 1. rewrite find_relabel.
  destruct (find (fun p => Z.eqb (fst p) x) t) as [p|] eqn:E; simpl;
    [|easy].
  assert (label_of t x = snd p) as L by (unfold label_of; now rewrite E).
  apply find_some in E. destruct E as [_ E]. apply Z.eqb_eq in E.
  intros H.
  destruct (fold_label_source edges (label_of t) (fst p) (snd p))
    as [F|[e [He F]]]; rewrite H in F.
  - apply Inv. congruence.
  - destruct (Hiso e He) as [H1 H2].
    destruct F as [F|F]; symmetry in F; apply Inv in F; contradiction.
Qed.

Lemma own_label_relabel_n (k : nat) (edges t : list (Z * Z)) (n : Z) :
  (forall e, In e edges -> fst e <> n /\ snd e <> n) ->
  (forall x, label_of t x = n -> x = n) ->
  forall x, label_of (relabel_n k edges t) x = n -> x = n.
Proof.
  intros Hiso. revert t. induction k as [|k IH]; intros t Inv; simpl;
    [assumption|].
  apply IH. now apply own_label_relabel.
Qed.

Lemma NoDup_map_eq {A B : Type} (f : A -> B) (l : list A) (x y : A) :
  NoDup (map f l) -> In x l -> In y l -> f x = f y -> x = y.
Proof.
  induction l as [|a l IH]; simpl; [tauto|].
  intros N Hx Hy E. inversion N as [|? ? Ha N']; subst.
  destruct Hx as [->|Hx], Hy as [->|Hy]; try reflexivity.
  - exfalso. apply Ha. rewrite E. now apply in_map.
  - exfalso. apply Ha. rewrite <- E. now apply in_map.
  - now apply IH.
Qed.

(** C7, as the code has it. The cluster table gets one row for each name
    row given to the clustering, in the same order, whether the row was
    paired or not. A name row that is in no retained pair is stored as a
    cluster of its own: under its own row id, which is the cluster id of no
    row with another id. An authority record is stored once for each of its
    name rows; when every authority record has one name row only, none is
    stored under two cluster ids, so that the stored clusters are disjoint
    sets of authority records. *)
Theorem cluster_table_has_every_row
    (df_norm : list Row) (retained : list (Z * Z)) :
  let df_clusters :=
    cluster_pairwise_predictions_at_threshold df_norm retained in
  let stored := cluster_results df_clusters in
  map fst stored = map auth_id df_norm
  /\ (forall r, In r df_norm ->
                (forall e, In e retained -> fst e <> id r /\ snd e <> id r) ->
                In (auth_id r, id r) stored
                /\ forall r', In r' df_clusters ->
                              cluster_id r' = id r -> id r' = id r)
  /\ (NoDup (map auth_id df_norm) ->
      forall a c1 c2, In (a, c1) stored -> In (a, c2) stored -> c1 = c2).
Proof.
  cbv zeta. unfold cluster_results, cluster_pairwise_predictions_at_threshold.
  split; [|split].
  - rewrite !map_map. reflexivity.
  - intros r Hr Hiso. split.
    + rewrite map_map. apply in_map_iff. exists r.
      split; [|assumption]. simpl. f_equal.
      rewrite isolated_relabel_n by assumption. apply label_of_start.
    + intros r' Hr' E. apply in_map_iff in Hr'.
      destruct Hr' as [r0 [<- _]]. simpl in *.
      apply (own_label_relabel_n (length df_norm) retained
               (map (fun r => (id r, id r)) df_norm) (id r) Hiso);
        [|exact E].
      intros x Hx. now rewrite label_of_start in Hx.
  - intros N a c1 c2 H1 H2. rewrite map_map in H1, H2.
    apply in_map_iff in H1, H2. simpl in H1, H2.
    destruct H1 as [r1 [E1 H1]]. destruct H2 as [r2 [E2 H2]].
    injection E1 as A1 <-. injection E2 as A2 <-.
    assert (r1 = r2) as ->
      by (apply (NoDup_map_eq auth_id df_norm); congruence).
    reflexivity.
Qed.

(** Three authority records with one name row each, the first two paired:
    the third is stored under its own row id, and no record is stored
    twice. *)
Lemma cluster_table_has_every_row_witness :
  NoDup (map auth_id Examples.three_rows)
  /\ cluster_results
       (cluster_pairwise_predictions_at_threshold Examples.three_rows
          [(1, 2)]%Z)
     = [(101, 1); (102, 1); (103, 3)]%Z
  /\ forall a c1 c2,
       In (a, c1) [(101, 1); (102, 1); (103, 3)]%Z ->
       In (a, c2) [(101, 1); (102, 1); (103, 3)]%Z -> c1 = c2.
Proof.
  assert (NoDup (map auth_id Examples.three_rows)) as N.
  { repeat constructor; simpl; intuition discriminate. }
  split; [exact N|]. split; [reflexivity|].
  exact (proj2 (proj2 (cluster_table_has_every_row Examples.three_rows
                         [(1, 2)]%Z)) N).
Defined.

(** C7 as it is stated fails, in both halves. Of three name rows with one
    retained pair, the third, which is alone in its component, is stored
    too. And the clusters are not disjoint sets of authority records: the
    record 100, whose main heading is paired with nothing and whose variant
    is paired with the record 200, is stored under the cluster ids 1 and
    2. *)
Lemma singleton_is_stored :
  cluster_results
    (cluster_pairwise_predictions_at_threshold Examples.three_rows
       [(1, 2)]%Z)
  = [(101, 1); (102, 1); (103, 3)]%Z
  /\ cluster_results
       (cluster_pairwise_predictions_at_threshold Examples.two_headings
          [(2, 3)]%Z)
     = [(100, 1); (100, 2); (200, 2)]%Z.
Proof. split; reflexivity. Qed.

End ClusterFacts.

(* ================================================================= *)
(** * Link generation *)

Module LinkFacts.
Import Py PyFacts Dedup.

Section Frames.

Context {K A : Type}.
Variable leb : K -> K -> bool.
Variable key : A -> K.

Lemma insert_sorted_In (x y : A) (l : list A) :
  In y (insert_sorted leb key x l) <-> y = x \/ In y l.
Proof.
  induction l as [|z l IH]; simpl.
  - intuition.
  - destruct (leb (key x) (key z)); simpl; [intuition|].
    rewrite IH. intuition.
Qed.

Lemma sort_values_In (y : A) (l : list A) :
  In y (sort_values leb key l) <-> In y l.
Proof.
  induction l as [|x l IH]; simpl; [tauto|].
  rewrite insert_sorted_In, IH. intuition.
Qed.

Lemma insert_sorted_length (x : A) (l : list A) :
  length (insert_sorted leb key x l) = S (length l).
Proof.
  induction l as [|z l IH]; simpl; [reflexivity|].
  destruct (leb (key x) (key z)); simpl; [reflexivity | now rewrite IH].
Qed.

Lemma sort_values_length (l : list A) :
  length (sort_values leb key l) = length l.
Proof.
  induction l as [|x l IH]; simpl; [reflexivity|].
  now rewrite insert_sorted_length, IH.
Qed.

End Frames.

Section Duplicates.

Context {K A : Type}.
Variable key : A -> K.
Variable eqb : K -> K -> bool.

Lemma drop_duplicates_In (y : A) (seen : list K) (l : list A) :
  In y (drop_duplicates eqb key seen l) -> In y l.
Proof.
  revert seen. induction l as [|x l IH]; intros seen; simpl; [tauto|].
  destruct (existsb (eqb (key x)) seen); simpl.
  - intros H. right. eapply IH; eassumption.
  - intros [H|H]; [now left | right; eapply IH; eassumption].
Qed.

Lemma drop_duplicates_length (seen : list K) (l : list A) :
  (length (drop_duplicates eqb key seen l) <= length l)%nat.
Proof.
  revert seen. induction l as [|x l IH]; intros seen; simpl; [lia|].
  destruct (existsb (eqb (key x)) seen); simpl.
  - specialize (IH seen). lia.
  - specialize (IH (key x :: seen)). lia.
Qed.

Hypothesis eqb_eq : forall a b, eqb a b = true <-> a = b.

(** After [drop_duplicates] no key is left twice, and none that was seen
    before. *)
Lemma drop_duplicates_NoDup (seen : list K) (l : list A) :
  NoDup (map key (drop_duplicates eqb key seen l))
  /\ forall y, In y (drop_duplicates eqb key seen l) -> ~ In (key y) seen.
Proof.
  revert seen. induction l as [|x l IH]; intros seen; simpl.
  - split; [constructor | tauto].
  - destruct (existsb (eqb (key x)) seen) eqn:E; [apply IH|].
    destruct (IH (key x :: seen)) as [N1 N2]. simpl. split.
    + constructor; [|assumption]. intros H. apply in_map_iff in H.
      destruct H as [y [Hk Hy]]. apply (N2 y Hy). now left.
    + intros y [<-|Hy].
      * intros H. assert (existsb (eqb (key x)) seen = true) as X.
        { apply existsb_exists. exists (key x). split; [assumption|].
          now apply eqb_eq. }
        congruence.
      * intros H. apply (N2 y Hy). now right.
Qed.

Lemma groupby_rows (leb : K -> K -> bool) (okey : A -> option K)
    (df : list A) (k : K) (g : list A) (r : A) :
  In (k, g) (groupby leb eqb okey df) -> In r g ->
  In r df /\ okey r = Some k.
Proof.
  unfold groupby. intros H Hr. apply in_map_iff in H.
  destruct H as [k' [E _]]. injection E as -> <-.
  apply filter_In in Hr. destruct Hr as [Hin Hk]. split; [assumption|].
  destruct (okey r) as [k''|]; [|discriminate].
  apply eqb_eq in Hk. now subst.
Qed.

End Duplicates.

(** ** The main record *)

Lemma fold_max_ge (l : list Z) (m : Z) :
  (m <= fold_left Z.max l m)%Z
  /\ forall x, In x l -> (x <= fold_left Z.max l m)%Z.
Proof.
  revert m. induction l as [|y l IH]; intros m; simpl.
  - split; [lia | tauto].
  - destruct (IH (Z.max m y)) as [H1 H2]. split; [lia|].
    intros x [<-|Hx]; [lia | now apply H2].
Qed.

Lemma fold_max_reached (l : list Z) (m : Z) :
  fold_left Z.max l m = m \/ In (fold_left Z.max l m) l.
Proof.
  revert m. induction l as [|y l IH]; intros m; simpl; [now left|].
  destruct (IH (Z.max m y)) as [H|H]; [|now right; right].
  rewrite H. destruct (Z.max_spec m y) as [[_ ->]|[_ ->]]; auto.
Qed.

Lemma max_used_count_bound (counts : list Z) (c : Z) :
  In c counts -> (c <= max_used_count counts)%Z.
Proof.
  destruct counts as [|c0 l]; simpl; [tauto|].
  destruct (fold_max_ge l c0) as [H1 H2].
  intros [<-|Hc]; [assumption | now apply H2].
Qed.

Lemma max_used_count_reached (counts : list Z) :
  counts <> [] -> In (max_used_count counts) counts.
Proof.
  destruct counts as [|c0 l]; [congruence|]. intros _. simpl.
  destruct (fold_max_reached l c0) as [H|H]; [left; now rewrite H|].
  now right.
Qed.

(** The first row of a frame sorted by [id] has the lowest [id]. *)
Lemma sort_values_first (l : list Row) (m : Row) (rest : list Row) :
  sort_values Z.leb id l = m :: rest ->
  forall r, In r l -> (id m <= id r)%Z.
Proof.
  revert m rest. induction l as [|x l IH]; intros m rest; simpl;
    [discriminate|].
  destruct (sort_values Z.leb id l) as [|y t] eqn:E; simpl.
  - intros H r [<-|Hr]; [injection H as <- _; lia|].
    apply (sort_values_In Z.leb id) in Hr. rewrite E in Hr. destruct Hr.
  - specialize (IH y t eq_refl).
    destruct (Z.leb_spec (id x) (id y)) as [Hle|Hlt]; intros H;
      injection H as <- _; intros r [<-|Hr]; try lia.
    + specialize (IH r Hr). lia.
    + now apply IH.
Qed.

(** A count that fits in 64 bits is not changed by the conversion. *)
Lemma to_int64_small (u : Z) :
  (- 2 ^ 63 <= u < 2 ^ 63)%Z -> to_int64 u = u.
Proof.
  intros H. unfold to_int64. rewrite Z.mod_small by lia. lia.
Qed.

Lemma Forall2_In_left {A B : Type} (R : A -> B -> Prop)
    (l : list A) (l' : list B) (x : A) :
  Forall2 R l l' -> In x l -> exists y, In y l' /\ R x y.
Proof.
  induction 1 as [|a b l l' Hab F IH]; simpl; [tauto|].
  intros [<-|Hx]; [exists b; auto|].
  destruct (IH Hx) as [y [Hy Hxy]]. exists y. auto.
Qed.

Lemma Forall2_In_right {A B : Type} (R : A -> B -> Prop)
    (l : list A) (l' : list B) (y : B) :
  Forall2 R l l' -> In y l' -> exists x, In x l /\ R x y.
Proof.
  induction 1 as [|a b l l' Hab F IH]; simpl; [tauto|].
  intros [<-|Hy]; [exists a; auto|].
  destruct (IH Hy) as [x [Hx Hxy]]. exists x. auto.
Qed.

(** The results of a loop that did not raise, one for each turn. *)
Lemma all_some_results {A B : Type} (f : A -> option B) (l : list A)
    (outs : list B) :
  all_some (map f l) = Some outs -> Forall2 (fun x o => f x = Some o) l outs.
Proof.
  revert outs. induction l as [|x l IH]; intros outs; simpl.
  - intros [= <-]. constructor.
  - destruct (f x) as [o|] eqn:E; [|discriminate].
    destruct (all_some (map f l)) as [os|]; [|discriminate].
    intros [= <-]. constructor; [assumption | now apply IH].
Qed.

(** A loop none of whose turns raises does not raise. *)
Lemma all_some_total {A B : Type} (f : A -> option B) (l : list A) :
  (forall x, In x l -> exists o, f x = Some o) ->
  exists outs, all_some (map f l) = Some outs.
Proof.
  induction l as [|x l IH]; intros H; simpl; [now exists []|].
  destruct (H x (or_introl eq_refl)) as [o ->].
  destruct IH as [os ->]; [intros y Hy; apply H; now right|].
  now exists (o :: os).
Qed.

(** The converted column of a frame whose counts are all there and fit in
    64 bits. *)
Lemma astype_int_counted (unique : list Row) :
  (forall r, In r unique ->
     exists u, used_count r = Some u /\ (- 2 ^ 63 <= u < 2 ^ 63)%Z) ->
  exists counts,
    astype_int (map used_count unique) = Some counts
    /\ Forall2 (fun r c => used_count r = Some c) unique counts.
Proof.
  unfold astype_int. induction unique as [|r unique IH]; intros H; simpl.
  - exists []. split; [reflexivity | constructor].
  - destruct (H r (or_introl eq_refl)) as [u [E Hu]].
    destruct IH as [counts [E' F]]; [intros y Hy; apply H; now right|].
    exists (u :: counts). rewrite E, E'. simpl.
    rewrite to_int64_small by assumption.
    split; [reflexivity | now constructor].
Qed.

Lemma main_record_spec (unique : list Row) :
  unique <> [] ->
  (forall r, In r unique ->
     exists u, used_count r = Some u /\ (- 2 ^ 63 <= u < 2 ^ 63)%Z) ->
  exists main count,
    main_record unique = Some main /\ In main unique
    /\ used_count main = Some count
    /\ (forall r u, In r unique -> used_count r = Some u -> (u <= count)%Z)
    /\ (forall r, In r unique -> used_count r = Some count ->
                  (id main <= id r)%Z).
Proof.
  intros Hne Hc. unfold main_record.
  destruct (astype_int_counted unique Hc) as [counts [-> F]].
  set (max_uc := max_used_count counts).
  set (tied := filter _ unique).
  assert (counts <> []) as Hcn.
  { intros ->. inversion F. congruence. }
  destruct (Forall2_In_right _ _ _ _ F (max_used_count_reached counts Hcn))
    as [r0 [Hr0 E0]]. fold max_uc in E0.
  assert (to_int64 max_uc = max_uc) as Hmax.
  { destruct (Hc r0 Hr0) as [u [E Hu]]. rewrite E0 in E.
    injection E as ->. now apply to_int64_small. }
  assert (forall r, In r unique -> used_count r = Some max_uc -> In r tied)
    as Ht.
  { intros r Hr E. apply filter_In. split; [assumption|].
    rewrite E, Hmax. apply Z.eqb_refl. }
  destruct (sort_values Z.leb id tied) as [|m rest] eqn:E.
  - specialize (Ht r0 Hr0 E0).
    apply (sort_values_In Z.leb id) in Ht. rewrite E in Ht. destruct Ht.
  - assert (In m tied) as Hm.
    { apply (sort_values_In Z.leb id). rewrite E. now left. }
    apply filter_In in Hm. destruct Hm as [Hm1 Hm2].
    destruct (Hc m Hm1) as [um [Em Hum]]. rewrite Em in Hm2.
    rewrite to_int64_small in Hm2 by assumption. apply Z.eqb_eq in Hm2.
    subst um. exists m, max_uc. simpl.
    split; [reflexivity|]. split; [assumption|]. split; [assumption|].
    split.
    + intros r u Hr Eu.
      destruct (Forall2_In_left _ _ _ _ F Hr) as [c [Hcin Ec]].
      assert (c = u) as -> by congruence.
      now apply max_used_count_bound.
    + intros r Hr Eu. apply (sort_values_first tied m rest E). now apply Ht.
Qed.

Lemma unique_members_In (cluster : list Row) (r : Row) :
  In r (unique_members cluster) -> In r cluster.
Proof.
  unfold unique_members. intros H. apply drop_duplicates_In in H.
  exact (proj1 (sort_values_In _ _ _ _) H).
Qed.

Lemma unique_members_NoDup (cluster : list Row) :
  NoDup (map source_authid (unique_members cluster)).
Proof.
  unfold unique_members. now apply drop_duplicates_NoDup, str_eqb_eq.
Qed.

Lemma unique_members_length (cluster : list Row) :
  (length (unique_members cluster) <= length cluster)%nat.
Proof.
  unfold unique_members.
  rewrite <- (sort_values_length authid_field_leb
                (fun r => (source_authid r, field r)) cluster).
  apply drop_duplicates_length.
Qed.

Lemma main_record_In (unique : list Row) (main : Row) :
  main_record unique = Some main -> In main unique.
Proof.
  unfold main_record. intros E.
  destruct (astype_int _) as [counts|]; [|discriminate].
  destruct (sort_values Z.leb id _) as [|m rest] eqn:S; [discriminate|].
  injection E as <-.
  assert (In m (m :: rest)) as Hm by now left.
  rewrite <- S in Hm. apply sort_values_In in Hm.
  now apply filter_In in Hm.
Qed.

Lemma group_links_rows (dom : str) (cid : Z) (cluster : list Row)
    (ls : list MergeLink) (l : MergeLink) :
  group_links dom cid cluster = Some ls -> In l ls ->
  exists r1 r2, In r1 cluster /\ In r2 cluster
                /\ link_main l = source_authid r1
                /\ link_other l = source_authid r2.
Proof.
  unfold group_links.
  destruct (Nat.ltb (length cluster) 2); [intros [= <-] []|].
  destruct (Nat.ltb (length (unique_members cluster)) 2);
    [intros [= <-] []|].
  destruct (main_record (unique_members cluster)) as [main|] eqn:E;
    [|discriminate].
  intros [= <-] H. apply in_map_iff in H. destruct H as [rec [<- Hrec]].
  apply filter_In in Hrec. destruct Hrec as [Hrec _].
  exists main, rec. simpl. repeat split.
  - now apply unique_members_In, main_record_In.
  - now apply unique_members_In.
Qed.

Lemma pair_eqb_eq (a b : Z * str) : pair_eqb a b = true <-> a = b.
Proof.
  unfold pair_eqb. rewrite andb_true_iff, Z.eqb_eq, str_eqb_eq.
  destruct a, b; simpl. split; [intros [-> ->]; reflexivity|].
  intros E; injection E; auto.
Qed.

(** ** The loops over the servers and their groups *)

(** A line of a server comes from one of its groups, and the server has a
    domain. *)
Lemma server_links_inv (srv_map : list (Z * str)) (srv : Z)
    (srv_grp : list Row) (links : list MergeLink) (l : MergeLink) :
  server_links srv_map srv srv_grp = Some links -> In l links ->
  exists dom cid lg cluster ls,
    srv_map_get srv_map srv = Some dom /\ dom <> []
    /\ In ((cid, lg), cluster)
          (groupby pair_leb pair_eqb
             (fun r => option_map (fun l => (cluster_id r, l)) (lang r))
             (filter (fun r => Z.eqb (field r) 200 || Z.eqb (field r) 400)
                     srv_grp))
    /\ group_links dom cid cluster = Some ls /\ In l ls.
Proof.
  unfold server_links.
  destruct (filter _ srv_grp) as [|r0 kept0] eqn:Ek; [intros [= <-] []|].
  rewrite <- Ek. clear Ek.
  destruct (srv_map_get srv_map srv) as [[|d dom]|];
    try (intros [= <-] []).
  destruct (all_some _) as [outs|] eqn:E; [|discriminate].
  intros [= <-] Hl. apply in_concat in Hl. destruct Hl as [ls [Hls Hl]].
  apply all_some_results in E.
  destruct (Forall2_In_right _ _ _ _ E Hls) as [[[cid lg] cluster] [Hg Eg]].
  exists (d :: dom), cid, lg, cluster, ls.
  repeat split; try assumption. discriminate.
Qed.

(** The merge lines of a server in the outcome are those of its rows. *)
Lemma servers_loop_inv (srv_map : list (Z * str))
    (groups : list (Z * list Row)) (srv : Z) (links : list MergeLink) :
  In (srv, links) (link_files (servers_loop srv_map groups)) ->
  exists srv_grp,
    In (srv, srv_grp) groups
    /\ server_links srv_map srv srv_grp = Some links.
Proof.
  induction groups as [|[k g] groups IH]; simpl; [tauto|].
  destruct (server_links srv_map k g) as [ls|] eqn:E; simpl; [|tauto].
  intros [H|H].
  - injection H as -> ->. exists g. auto.
  - destruct (IH H) as [grp [Hg Hs]]. exists grp. auto.
Qed.

Lemma generate_links_inv (df : list Row) (srv_map : list (Z * str))
    (srv : Z) (links : list MergeLink) :
  In (srv, links) (link_files (generate_links df srv_map)) ->
  exists srv_grp,
    In (srv, srv_grp)
       (groupby Z.leb Z.eqb (fun r => Some (server_id r)) df)
    /\ server_links srv_map srv srv_grp = Some links.
Proof. apply servers_loop_inv. Qed.

(** Every merge link of a server is made of two rows of that server whose
    field is 200 or 400. *)
Lemma generate_links_rows (df : list Row) (srv_map : list (Z * str))
    (srv : Z) (links : list MergeLink) (l : MergeLink) :
  In (srv, links) (link_files (generate_links df srv_map)) -> In l links ->
  exists r1 r2,
    (In r1 df /\ server_id r1 = srv
     /\ (field r1 = 200 \/ field r1 = 400)%Z)
    /\ (In r2 df /\ server_id r2 = srv
        /\ (field r2 = 200 \/ field r2 = 400)%Z)
    /\ link_main l = source_authid r1 /\ link_other l = source_authid r2.
Proof.
  intros H Hl. apply generate_links_inv in H.
  destruct H as [srv_grp [Hg Hs]].
  destruct (server_links_inv _ _ _ _ _ Hs Hl)
    as [dom [cid [lg [cluster [ls [_ [_ [Hc [Egl Hls]]]]]]]]].
  destruct (group_links_rows _ _ _ _ _ Egl Hls)
    as [r1 [r2 [H1 [H2 [E1 E2]]]]].
  assert (forall r, In r cluster ->
            In r df /\ server_id r = srv
            /\ (field r = 200 \/ field r = 400)%Z) as G.
  { intros r Hr.
    destruct (groupby_rows pair_eqb pair_eqb_eq _ _ _ _ _ r Hc Hr)
      as [Hk _].
    apply filter_In in Hk. destruct Hk as [Hk Hf].
    destruct (groupby_rows Z.eqb Z.eqb_eq _ _ _ _ _ r Hg Hk) as [Hd Hsrv].
    split; [assumption|]. split; [congruence|].
    apply orb_true_iff in Hf. destruct Hf as [Hf|Hf];
      apply Z.eqb_eq in Hf; auto. }
  exists r1, r2. auto.
Qed.

(** C3, as the code has it. Link generation keeps, for each server, the
    rows whose field is 200 or 400, main and variant headings. A source
    authority id names a record of one server: a record [m] of the server
    [srv] none of whose rows is a main or a variant heading, so one with
    linked headings (field 700) only, is in no merge link of that server,
    neither as the main record nor as the other one, whatever rows other
    servers have under the same id. *)
Theorem linked_only_member_in_no_link
    (df : list Row) (srv_map : list (Z * str)) (srv : Z) (m : str) :
  (forall r, In r df -> server_id r = srv -> source_authid r = m ->
             field r <> field_num MAIN /\ field r <> field_num VARIANT) ->
  forall links l,
    In (srv, links) (link_files (generate_links df srv_map)) ->
    In l links ->
    link_main l <> m /\ link_other l <> m.
Proof.
  unfold field_num. intros Hm links l H Hl.
  destruct (generate_links_rows df srv_map srv links l H Hl)
    as [r1 [r2 [[H1 [S1 F1]] [[H2 [S2 F2]] [E1 E2]]]]].
  split; intros E.
  - destruct (Hm r1 H1 S1) as [A B]; [congruence | tauto].
  - destruct (Hm r2 H2 S2) as [A B]; [congruence | tauto].
Qed.

(** On server 1 the record a3 has a linked heading only, and the highest
    usage count of its cluster; server 2 has a main heading under the same
    id a3. The one link of server 1 does not name a3, the one of server 2
    does. *)
Lemma linked_only_member_in_no_link_witness :
  generate_links Examples.shared_authid Examples.two_servers
  = mkOutcome
      [(1%Z, [mkLink (lit "lib.example.org") (lit "a1") (lit "a2") 1
                     (lit "Shevchenko T.") (lit "Shevchenko Taras")]);
       (2%Z, [mkLink (lit "other.example.org") (lit "b1") (lit "a3") 1
                     (lit "Shevchenko Taras H.") (lit "Shevchenko T. H.")])]
      false
  /\ forall links l,
       In (1%Z, links)
          (link_files
             (generate_links Examples.shared_authid Examples.two_servers)) ->
       In l links -> link_main l <> lit "a3" /\ link_other l <> lit "a3".
Proof.
  split; [reflexivity|].
  apply (linked_only_member_in_no_link Examples.shared_authid
           Examples.two_servers 1%Z (lit "a3")).
  intros r Hr S E. simpl in Hr.
  destruct Hr as [<-|[<-|[<-|[<-|[<-|[]]]]]];
    try discriminate E; try discriminate S.
  split; discriminate.
Defined.

(** C3 as it is stated fails: the record a2 has a variant heading only
    (field 400) and is the other record of a merge link. *)
Lemma variant_only_member_is_linked :
  (forall r, In r Examples.main_and_variant ->
             source_authid r = lit "a2" -> field r = field_num VARIANT)
  /\ generate_links Examples.main_and_variant Examples.one_server
     = mkOutcome
         [(1%Z, [mkLink (lit "lib.example.org") (lit "a1") (lit "a2") 1
                        (lit "Shevchenko T.") (lit "Shevchenko Taras")])]
         false.
Proof.
  split; [|reflexivity].
  intros r Hr E. simpl in Hr.
  destruct Hr as [<-|[<-|[]]]; [discriminate E | reflexivity].
Qed.

Lemma others_NoDup (main : Row) (unique : list Row) :
  NoDup (map source_authid unique) ->
  NoDup (map source_authid
           (filter (fun r => negb (str_eqb (source_authid r)
                                           (source_authid main))) unique)).
Proof.
  induction unique as [|x u IH]; simpl; [constructor|].
  intros Hnd. inversion Hnd as [|? ? Hx Hu]; subst.
  destruct (negb _); simpl; [|now apply IH].
  constructor; [|now apply IH].
  intros H. apply Hx. apply in_map_iff in H. destruct H as [y [E Hy]].
  apply filter_In in Hy. apply in_map_iff. exists y. tauto.
Qed.

(** ** Every group is gone through *)

Lemma filter_filter {A : Type} (f g : A -> bool) (l : list A) :
  filter f (filter g l) = filter (fun x => g x && f x) l.
Proof.
  induction l as [|x l IH]; simpl; [reflexivity|].
  destruct (g x); simpl; [|assumption].
  destruct (f x); now rewrite IH.
Qed.

Lemma drop_duplicates_keeps {K : Type} (eqb : K -> K -> bool) :
  (forall a b, eqb a b = true <-> a = b) ->
  forall (l seen : list K) (k : K),
    In k l -> ~ In k seen -> In k (drop_duplicates eqb (fun k => k) seen l).
Proof.
  intros eqb_eq. induction l as [|x l IH]; intros seen k; simpl; [tauto|].
  intros Hk Hs. destruct (existsb (eqb x) seen) eqn:E.
  - destruct Hk as [->|Hk]; [|now apply IH].
    apply existsb_exists in E. destruct E as [y [Hy E]].
    apply eqb_eq in E. now subst.
  - destruct Hk as [->|Hk]; [now left|].
    destruct (eqb x k) eqn:Exk.
    + apply eqb_eq in Exk. now left.
    + right. apply IH; [assumption|]. intros [->|H]; [|contradiction].
      assert (eqb k k = true) by (now apply eqb_eq). congruence.
Qed.

(** [groupby] has a group for the key of every row. *)
Lemma groupby_has_group {K A : Type} (leb eqb : K -> K -> bool)
    (okey : A -> option K) (df : list A) (r : A) (k : K) :
  (forall a b, eqb a b = true <-> a = b) ->
  In r df -> okey r = Some k ->
  In (k, filter (fun r => match okey r with
                          | Some k' => eqb k' k
                          | None => false
                          end) df)
     (groupby leb eqb okey df).
Proof.
  intros eqb_eq Hr Hk. unfold groupby. apply in_map_iff. exists k.
  split; [reflexivity|].
  apply (drop_duplicates_keeps eqb eqb_eq); [|tauto].
  apply sort_values_In. apply in_flat_map. exists r.
  split; [assumption|]. rewrite Hk. now left.
Qed.

(** A group whose counts are all there and fit in 64 bits raises
    nothing. *)
Lemma group_links_total (dom : str) (cid : Z) (cluster : list Row) :
  (forall r, In r cluster ->
     exists u, used_count r = Some u /\ (- 2 ^ 63 <= u < 2 ^ 63)%Z) ->
  exists ls, group_links dom cid cluster = Some ls.
Proof.
  intros Hc. unfold group_links.
  destruct (Nat.ltb (length cluster) 2); [now exists []|].
  destruct (Nat.ltb (length (unique_members cluster)) 2) eqn:L;
    [now exists []|].
  destruct (main_record_spec (unique_members cluster))
    as [main [count [-> _]]].
  - intros E. rewrite E in L. discriminate.
  - intros r Hr. now apply Hc, unique_members_In.
  - eexists. reflexivity.
Qed.

Lemma server_links_total (srv_map : list (Z * str)) (srv : Z)
    (srv_grp : list Row) :
  (forall r, In r srv_grp ->
     exists u, used_count r = Some u /\ (- 2 ^ 63 <= u < 2 ^ 63)%Z) ->
  exists links, server_links srv_map srv srv_grp = Some links.
Proof.
  intros Hc. unfold server_links.
  destruct (filter _ srv_grp) as [|r0 kept0] eqn:Ek; [now exists []|].
  rewrite <- Ek. clear Ek.
  destruct (srv_map_get srv_map srv) as [[|d dom]|]; try (now exists []).
  destruct (all_some_total
              (fun g : Z * str * list Row =>
                 group_links (d :: dom) (fst (fst g)) (snd g))
              (groupby pair_leb pair_eqb
                 (fun r => option_map (fun l => (cluster_id r, l)) (lang r))
                 (filter (fun r => Z.eqb (field r) 200
                                   || Z.eqb (field r) 400) srv_grp)))
    as [outs E].
  - intros [k g] Hg. apply group_links_total. intros r Hr.
    destruct (groupby_rows pair_eqb pair_eqb_eq _ _ _ _ _ r Hg Hr)
      as [Hk _].
    apply filter_In in Hk. now apply Hc.
  - rewrite E. eexists. reflexivity.
Qed.

(** A run none of whose servers raises goes through all of them. *)
Lemma servers_loop_total (srv_map : list (Z * str))
    (groups : list (Z * list Row)) :
  (forall g, In g groups ->
     exists links, server_links srv_map (fst g) (snd g) = Some links) ->
  raised (servers_loop srv_map groups) = false
  /\ forall srv srv_grp links,
       In (srv, srv_grp) groups ->
       server_links srv_map srv srv_grp = Some links ->
       In (srv, links) (link_files (servers_loop srv_map groups)).
Proof.
  induction groups as [|g groups IH]; intros H; simpl.
  - split; [reflexivity | tauto].
  - destruct (H g (or_introl eq_refl)) as [ls E]. rewrite E. simpl.
    destruct IH as [R I]; [intros g' Hg'; apply H; now right|].
    split; [assumption|]. intros srv srv_grp links [->|Hg] Es.
    + left. cbn [fst snd] in *. rewrite Es in E. now injection E as ->.
    + right. eapply I; eassumption.
Qed.

(** The lines of a group are among the lines of its server, in one
    piece. *)
Lemma server_links_has_group (srv_map : list (Z * str)) (srv cid : Z)
    (dom lg : str) (srv_grp cluster : list Row)
    (links ls : list MergeLink) :
  srv_map_get srv_map srv = Some dom -> dom <> [] ->
  In ((cid, lg), cluster)
     (groupby pair_leb pair_eqb
        (fun r => option_map (fun l => (cluster_id r, l)) (lang r))
        (filter (fun r => Z.eqb (field r) 200 || Z.eqb (field r) 400)
                srv_grp)) ->
  cluster <> [] ->
  server_links srv_map srv srv_grp = Some links ->
  group_links dom cid cluster = Some ls ->
  exists before after, links = before ++ ls ++ after.
Proof.
  intros Hd Hne Hg Hcl. unfold server_links.
  destruct (filter _ srv_grp) as [|r0 kept0] eqn:Ek.
  - destruct cluster as [|r cluster]; [congruence|].
    destruct (groupby_rows pair_eqb pair_eqb_eq _ _ _ _ _ r Hg
                (or_introl eq_refl)) as [[] _].
  - rewrite <- Ek in *. clear Ek. rewrite Hd.
    destruct dom as [|d dom]; [congruence|].
    destruct (all_some _) as [outs|] eqn:E; [|discriminate].
    intros [= <-] Egl. apply all_some_results in E.
    apply in_split in Hg. destruct Hg as [g1 [g2 Hg]]. rewrite Hg in E.
    apply Forall2_app_inv_l in E.
    destruct E as [o1 [o2 [_ [F ->]]]].
    inversion F as [|? o ? o2' Eo _]; subst. cbn [fst snd] in Eo.
    assert (o = ls) as -> by congruence.
    exists (concat o1), (concat o2'). now rewrite concat_app.
Qed.

(** C8. Take a table whose usage counts are all there and fit in 64 bits,
    a server with a domain, and the group of one cluster and one language
    of that server: its rows with a main or a variant heading. When at
    least two records are left after the rows of one source authority id
    are reduced to one, the main record of the group has the highest usage
    count and, among the records with that count, the lowest [id]; the run
    is not stopped by an exception, and the merge lines of the server hold,
    in one piece, the lines of the group: one for each other record of the
    group, from the main record to it. *)
Theorem main_record_of_group
    (df : list Row) (srv_map : list (Z * str)) (srv cid : Z)
    (lg dom : str) :
  (forall r, In r df ->
     exists u, used_count r = Some u /\ (- 2 ^ 63 <= u < 2 ^ 63)%Z) ->
  srv_map_get srv_map srv = Some dom -> dom <> [] ->
  let cluster :=
    filter (fun r => Z.eqb (server_id r) srv
                     && (Z.eqb (field r) 200 || Z.eqb (field r) 400)
                     && match lang r with
                        | Some l => Z.eqb (cluster_id r) cid && str_eqb l lg
                        | None => false
                        end) df in
  let unique := unique_members cluster in
  (2 <= length unique)%nat ->
  exists main count others,
    main_record unique = Some main /\ In main unique
    /\ used_count main = Some count
    /\ (forall r u, In r unique -> used_count r = Some u -> (u <= count)%Z)
    /\ (forall r, In r unique -> used_count r = Some count ->
                  (id main <= id r)%Z)
    /\ (forall r, In r others <->
                  In r unique /\ source_authid r <> source_authid main)
    /\ NoDup (map source_authid others)
    /\ raised (generate_links df srv_map) = false
    /\ exists links before after,
         In (srv, links) (link_files (generate_links df srv_map))
         /\ links
            = before
              ++ map (fun rec =>
                        mkLink dom (source_authid main) (source_authid rec)
                               cid (full_name main) (full_name rec))
                     others
              ++ after.
Proof.
  intros Hc Hd Hdne. cbv zeta.
  set (srv_grp := filter (fun r => match Some (server_id r) with
                                   | Some k' => Z.eqb k' srv
                                   | None => false
                                   end) df).
  set (kept := filter (fun r => Z.eqb (field r) 200 || Z.eqb (field r) 400)
                      srv_grp).
  set (okey := fun r : Row =>
                 option_map (fun l => (cluster_id r, l)) (lang r)).
  set (cluster := filter (fun r => match okey r with
                                   | Some k' => pair_eqb k' (cid, lg)
                                   | None => false
                                   end) kept).
  replace (filter _ df) with cluster.
  2:{ unfold cluster, kept, srv_grp. rewrite !filter_filter.
      apply filter_ext. intros r. unfold okey. rewrite andb_assoc.
      now destruct (lang r). }
  intros Hlen.
  pose proof (unique_members_length cluster) as Hle.
  pose proof (unique_members_NoDup cluster) as Hnd.
  assert (forall r, In r cluster ->
            In r kept /\ In r srv_grp /\ In r df
            /\ server_id r = srv /\ okey r = Some (cid, lg)) as Hin.
  { intros r Hr. apply filter_In in Hr. destruct Hr as [Hk Ho].
    pose proof Hk as Hk'. apply filter_In in Hk'. destruct Hk' as [Hs _].
    pose proof Hs as Hs'. apply filter_In in Hs'. destruct Hs' as [Hdf Hv].
    apply Z.eqb_eq in Hv. repeat split; try assumption.
    destruct (okey r) as [k|]; [|discriminate].
    apply pair_eqb_eq in Ho. now subst. }
  assert (forall r, In r cluster ->
            exists u, used_count r = Some u /\ (- 2 ^ 63 <= u < 2 ^ 63)%Z)
    as Hcc by (intros r Hr; apply Hc; now apply Hin).
  assert (unique_members cluster <> []) as Hne.
  { intros E. rewrite E in Hlen. simpl in Hlen. lia. }
  destruct (main_record_spec (unique_members cluster) Hne)
    as [main [count [Em [Hmain [Hcount [Hmax Hmin]]]]]];
    [intros r Hr; now apply Hcc, unique_members_In|].
  set (others := filter (fun r => negb (str_eqb (source_authid r)
                                                (source_authid main)))
                        (unique_members cluster)).
  exists main, count, others.
  split; [assumption|]. split; [assumption|]. split; [assumption|].
  split; [assumption|]. split; [assumption|]. split; [|split].
  { intros r. unfold others. rewrite filter_In, negb_true_iff. split.
    - intros [Hr Hneq]. split; [assumption|]. intros E.
      assert (str_eqb (source_authid r) (source_authid main) = true)
        by now apply str_eqb_eq.
      congruence.
    - intros [Hr Hneq]. split; [assumption|].
      destruct (str_eqb (source_authid r) (source_authid main)) eqn:E;
        [|reflexivity].
      apply str_eqb_eq in E. contradiction. }
  { now apply others_NoDup. }
  assert (group_links dom cid cluster
          = Some (map (fun rec =>
                         mkLink dom (source_authid main) (source_authid rec)
                                cid (full_name main) (full_name rec))
                      others)) as G.
  { unfold group_links.
    replace (Nat.ltb (length cluster) 2) with false
      by (symmetry; apply Nat.ltb_ge; lia).
    replace (Nat.ltb (length (unique_members cluster)) 2) with false
      by (symmetry; apply Nat.ltb_ge; lia).
    now rewrite Em. }
  assert (In main cluster) as Hmc by now apply unique_members_In.
  destruct (Hin main Hmc) as [Hk [Hs [Hdf [Hsrv Hkey]]]].
  assert (In (srv, srv_grp)
             (groupby Z.leb Z.eqb (fun r => Some (server_id r)) df)) as Gs.
  { apply (groupby_has_group Z.leb Z.eqb (fun r => Some (server_id r)) df
             main srv Z.eqb_eq Hdf). now rewrite Hsrv. }
  assert (In ((cid, lg), cluster) (groupby pair_leb pair_eqb okey kept))
    as Gc
    by (exact (groupby_has_group pair_leb pair_eqb okey kept main (cid, lg)
                 pair_eqb_eq Hk Hkey)).
  destruct (servers_loop_total srv_map
              (groupby Z.leb Z.eqb (fun r => Some (server_id r)) df))
    as [R I].
  { intros [k g] Hg. apply server_links_total. intros r Hr. apply Hc.
    now destruct (groupby_rows Z.eqb Z.eqb_eq _ _ _ _ _ r Hg Hr). }
  split; [exact R|].
  destruct (server_links_total srv_map srv srv_grp) as [links El].
  { intros r Hr. apply Hc. now apply filter_In in Hr. }
  destruct (server_links_has_group srv_map srv cid dom lg srv_grp cluster
              links
              (map (fun rec =>
                      mkLink dom (source_authid main) (source_authid rec)
                             cid (full_name main) (full_name rec))
                   others)
              Hd Hdne Gc) as [before [after E]];
    [intros X; now rewrite X in Hmc | exact El | exact G |].
  exists links, before, after. split; [|exact E].
  exact (I srv srv_grp links Gs El).
Qed.

(** A group of three records, two of them with the usage count 4. *)
Lemma main_record_of_group_witness :
  (forall r, In r Examples.tied_rows ->
     exists u, used_count r = Some u /\ (- 2 ^ 63 <= u < 2 ^ 63)%Z)
  /\ srv_map_get Examples.one_server 1 = Some (lit "lib.example.org")
  /\ (2 <= length (unique_members Examples.tied_rows))%nat
  /\ exists main count others,
       main_record (unique_members Examples.tied_rows) = Some main
       /\ used_count main = Some count
       /\ (forall r u, In r (unique_members Examples.tied_rows) ->
                       used_count r = Some u -> (u <= count)%Z)
       /\ exists links before after,
            In (1%Z, links)
               (link_files
                  (generate_links Examples.tied_rows Examples.one_server))
            /\ links
               = before
                 ++ map (fun rec =>
                           mkLink (lit "lib.example.org")
                                  (source_authid main) (source_authid rec)
                                  1 (full_name main) (full_name rec))
                        others
                 ++ after.
Proof.
  assert (forall r, In r Examples.tied_rows ->
            exists u, used_count r = Some u /\ (- 2 ^ 63 <= u < 2 ^ 63)%Z)
    as Hc.
  { intros r Hr. simpl in Hr.
    destruct Hr as [<-|[<-|[<-|[]]]]; eexists; (split; [reflexivity|]);
      (split; [intros X; vm_compute in X; discriminate X | reflexivity]). }
  split; [exact Hc|]. split; [reflexivity|]. split; [simpl; lia|].
  destruct (main_record_of_group Examples.tied_rows Examples.one_server
              1 1 (lit "ukr") (lit "lib.example.org") Hc eq_refl)
    as [main [count [others [Em [_ [Ec [Hmax [_ [_ [_ [_ L]]]]]]]]]]];
    [discriminate | simpl; lia |].
  exists main, count, others. auto.
Defined.

(** The main record of that group and the links of the run. *)
Example tied_rows_links :
  main_record (unique_members Examples.tied_rows)
  = Some (Examples.name_row 4 "a4" 1 200 "ukr" 1 4 "Ukrainka L.")
  /\ generate_links Examples.tied_rows Examples.one_server
     = mkOutcome
         [(1%Z, [mkLink (lit "lib.example.org") (lit "a4") (lit "a7") 1
                        (lit "Ukrainka L.") (lit "Lesia Ukrainka");
                 mkLink (lit "lib.example.org") (lit "a4") (lit "a9") 1
                        (lit "Ukrainka L.") (lit "Ukrainka Lesia")])]
         false.
Proof. split; reflexivity. Qed.

(** A missing count stops the run: the conversion of the column raises,
    and nothing is written for the server. *)
Example missing_count_raises :
  generate_links Examples.missing_count Examples.one_server
  = mkOutcome [] true.
Proof. reflexivity. Qed.

(** A count of 2^63 becomes the lowest 64-bit integer, and the record with
    the count 4 is the main record. *)
Example huge_count_wraps :
  main_record (unique_members Examples.huge_count)
  = Some (Examples.name_row 4 "a4" 1 200 "ukr" 1 4 "Ukrainka L.").
Proof. reflexivity. Qed.

End LinkFacts.

(* ================================================================= *)
(** * Running the text normaliser twice *)

Module CleanTextFacts.
Import Py PyFacts Normalize.

Lemma clean_text_chain (text : str) :
  clean_text text =
  match strip text with
  | [] => []
  | _ :: _ =>
      filter (fun c => negb (is_control c))
             (strip (sub_spaces false (flat_map char_pipeline text)))
  end.
Proof.
  unfold clean_text. destruct (strip text) as [|c0 rest]; [reflexivity|].
  do 3 f_equal. unfold translate.
  induction text as [|c text IH]; [reflexivity|].
  cbn [map flat_map]. rewrite filter_app, flat_map_app, IH. reflexivity.
Qed.

Lemma char_pipeline_miss (c : char) :
  ~ In c table_chars -> char_pipeline c = [c].
Proof.
  unfold table_chars. rewrite !in_app_iff. intros H.
  unfold char_pipeline.
  rewrite (table_get_miss superscript_map c) by tauto.
  rewrite (table_get_miss subscript_map c) by tauto.
  rewrite (dict_get_miss char_conversion c) by tauto.
  cbn [filter].
  replace (mem c chars_to_delete) with false
    by (symmetry; apply mem_false_iff; tauto).
  cbn [negb flat_map]. rewrite (dict_get_miss punctuation_rules c) by tauto.
  reflexivity.
Qed.

(** Every character that comes out of the tables is white space or is left
    alone by a second run, but for the slash made of the division sign. *)
Lemma char_pipeline_stable (c d : char) :
  unstable_char c = false -> In d (char_pipeline c) ->
  isspace d = true \/ fixed_char d = true.
Proof.
  unfold unstable_char. intros Hc Hd.
  apply orb_false_iff in Hc. destruct Hc as [Hdiv Hctl].
  destruct (mem c table_chars) eqn:Hm.
  - apply mem_true_iff in Hm.
    assert (forallb (fun c => (c =? 0xF7)
                              || forallb (fun d => isspace d || fixed_char d)
                                         (char_pipeline c))
                    table_chars = true) as T by (vm_compute; reflexivity).
    rewrite forallb_forall in T. specialize (T c Hm). rewrite Hdiv in T.
    simpl in T. rewrite forallb_forall in T.
    now apply orb_true_iff, T.
  - apply mem_false_iff in Hm.
    rewrite (char_pipeline_miss c Hm) in Hd. destruct Hd as [<-|[]].
    unfold fixed_char. rewrite (char_pipeline_miss c Hm), str_eqb_refl.
    simpl. destruct (is_control c); simpl in *; [|now right].
    left. now apply negb_false_iff.
Qed.

(** ** White space *)

Lemma space_is_space : isspace 0x20 = true.
Proof. reflexivity. Qed.

Lemma sub_spaces_In (b : bool) (s : str) (d : char) :
  In d (sub_spaces b s) -> d = 0x20 \/ (In d s /\ isspace d = false).
Proof.
  revert b. induction s as [|c s IH]; intros b; simpl; [tauto|].
  destruct (isspace c) eqn:E.
  - destruct b; simpl.
    + intros H. destruct (IH true H) as [?|[? ?]]; auto.
    + intros [<-|H]; [now left|].
      destruct (IH true H) as [?|[? ?]]; auto.
  - simpl. intros [<-|H]; [auto|].
    destruct (IH false H) as [?|[? ?]]; auto.
Qed.

Lemma lstrip_In (s : str) (d : char) : In d (lstrip s) -> In d s.
Proof.
  induction s as [|c s IH]; simpl; [tauto|].
  destruct (isspace c); [auto | tauto].
Qed.

Lemma rstrip_In (s : str) (d : char) : In d (rstrip s) -> In d s.
Proof.
  induction s as [|c s IH]; simpl; [tauto|].
  destruct (rstrip s) as [|x r].
  - destruct (isspace c); simpl; tauto.
  - simpl in *. tauto.
Qed.

Lemma strip_In (s : str) (d : char) : In d (strip s) -> In d s.
Proof. intros H. now apply lstrip_In, rstrip_In. Qed.

Lemma tidy_sub_spaces (b : bool) (s : str) : tidy b (sub_spaces b s) = true.
Proof.
  revert b. induction s as [|c s IH]; intros b; simpl; [reflexivity|].
  destruct (isspace c) eqn:E.
  - destruct b; [apply IH|]. simpl. apply IH.
  - simpl. rewrite E. apply IH.
Qed.

Lemma sub_spaces_tidy (b : bool) (s : str) :
  tidy b s = true -> sub_spaces b s = s.
Proof.
  revert b. induction s as [|c s IH]; intros b; simpl; [reflexivity|].
  destruct (isspace c).
  - intros H. apply andb_true_iff in H. destruct H as [H Ht].
    apply andb_true_iff in H. destruct H as [Hc Hb].
    apply N.eqb_eq in Hc. destruct b; [discriminate|].
    now rewrite (IH true Ht), Hc.
  - intros H. now rewrite (IH false H).
Qed.

Lemma tidy_false (b : bool) (s : str) : tidy b s = true -> tidy false s = true.
Proof.
  destruct s as [|c s]; simpl; [reflexivity|].
  destruct (isspace c); [|tauto].
  intros H. apply andb_true_iff in H. destruct H as [H Ht].
  apply andb_true_iff in H. destruct H as [Hc _]. now rewrite Hc, Ht.
Qed.

Lemma tidy_lstrip (b : bool) (s : str) :
  tidy b s = true -> tidy false (lstrip s) = true.
Proof.
  revert b. induction s as [|c s IH]; intros b; simpl; [reflexivity|].
  destruct (isspace c) eqn:E.
  - intros H. apply andb_true_iff in H. destruct H as [_ Ht].
    now apply (IH true).
  - intros H. simpl. now rewrite E.
Qed.

Lemma tidy_rstrip (b : bool) (s : str) :
  tidy b s = true -> tidy b (rstrip s) = true.
Proof.
  revert b. induction s as [|c s IH]; intros b; simpl; [reflexivity|].
  destruct (isspace c) eqn:E.
  - intros H. apply andb_true_iff in H. destruct H as [H Ht].
    apply IH in Ht. destruct (rstrip s) as [|x r]; [reflexivity|].
    simpl. rewrite E. now rewrite H.
  - intros H. apply IH in H. destruct (rstrip s) as [|x r]; simpl;
      now rewrite E.
Qed.

Lemma rstrip_idempotent (s : str) : rstrip (rstrip s) = rstrip s.
Proof.
  induction s as [|c s IH]; simpl; [reflexivity|].
  destruct (rstrip s) as [|x r] eqn:R.
  - destruct (isspace c) eqn:E; simpl; [reflexivity | now rewrite E].
  - change (rstrip (c :: x :: r)) with
      (match rstrip (x :: r) with
       | [] => if isspace c then [] else [c]
       | r' => c :: r'
       end).
    now rewrite IH.
Qed.

Lemma rstrip_cons (c : char) (s : str) :
  isspace c = false -> rstrip (c :: s) = c :: rstrip s.
Proof.
  intros E. simpl. destruct (rstrip s); [now rewrite E | reflexivity].
Qed.

Lemma lstrip_start (s : str) :
  lstrip s = [] \/ exists c r, lstrip s = c :: r /\ isspace c = false.
Proof.
  induction s as [|c s IH]; simpl; [now left|].
  destruct (isspace c) eqn:E; [assumption | right; eauto].
Qed.

Lemma strip_idempotent (s : str) : strip (strip s) = strip s.
Proof.
  unfold strip. destruct (lstrip_start s) as [->|[c [r [-> E]]]];
    [reflexivity|].
  rewrite (rstrip_cons c r E). simpl lstrip. rewrite E.
  rewrite <- (rstrip_cons c r E). apply rstrip_idempotent.
Qed.

Lemma filter_all {A} (f : A -> bool) (l : list A) :
  (forall x, In x l -> f x = true) -> filter f l = l.
Proof.
  induction l as [|x l IH]; simpl; intros H; [reflexivity|].
  rewrite (H x (or_introl eq_refl)), IH; [reflexivity|].
  intros y Hy. apply H. now right.
Qed.

Lemma flat_map_fixed (l : str) :
  (forall d, In d l -> fixed_char d = true) -> flat_map char_pipeline l = l.
Proof.
  induction l as [|x l IH]; simpl; intros H; [reflexivity|].
  rewrite IH by (intros y Hy; apply H; now right).
  specialize (H x (or_introl eq_refl)). unfold fixed_char in H.
  apply andb_true_iff in H. destruct H as [H _]. apply str_eqb_eq in H.
  now rewrite H.
Qed.

(** C5, as the code has it. On a raw string without the division sign and
    without control characters other than white space, a second run of
    [clean_text] changes nothing. *)
Theorem clean_text_idempotent (s : str) :
  existsb unstable_char s = false ->
  clean_text (clean_text s) = clean_text s.
Proof.
  intros Hs.
  assert (forall c, In c s -> unstable_char c = false) as Hc.
  { intros c Hin. destruct (unstable_char c) eqn:E; [|reflexivity].
    assert (existsb unstable_char s = true) as X
      by (apply existsb_exists; eauto).
    congruence. }
  rewrite (clean_text_chain s).
  destruct (strip s) as [|c0 rest]; [reflexivity|].
  set (u := flat_map char_pipeline s).
  set (v := strip (sub_spaces false u)).
  assert (forall d, In d v -> fixed_char d = true) as Hv.
  { intros d Hd. apply strip_In, sub_spaces_In in Hd.
    destruct Hd as [->|[Hd Hsp]]; [reflexivity|].
    apply in_flat_map in Hd. destruct Hd as [c [Hin Hd]].
    destruct (char_pipeline_stable c d (Hc c Hin) Hd); congruence. }
  assert (filter (fun c => negb (is_control c)) v = v) as Hf.
  { apply filter_all. intros d Hd. specialize (Hv d Hd).
    unfold fixed_char in Hv. now apply andb_true_iff in Hv. }
  rewrite Hf, (clean_text_chain v).
  assert (strip v = v) as Sv by apply strip_idempotent.
  rewrite Sv. destruct v as [|d v'] eqn:Ev; [reflexivity|].
  rewrite <- Ev in *. rewrite (flat_map_fixed v Hv).
  assert (tidy false v = true) as Tv.
  { unfold v, strip. apply tidy_rstrip, (tidy_lstrip false).
    apply tidy_sub_spaces. }
  now rewrite (sub_spaces_tidy false v Tv), Sv.
Qed.

Lemma clean_text_idempotent_witness :
  existsb unstable_char (lit "  Hello,   World!  (x) ") = false
  /\ clean_text (clean_text (lit "  Hello,   World!  (x) "))
     = clean_text (lit "  Hello,   World!  (x) ").
Proof.
  split; [reflexivity|].
  apply (clean_text_idempotent (lit "  Hello,   World!  (x) ")).
  reflexivity.
Defined.

(** C5 as it is stated fails: the division sign between two letters gives
    a slash at the first run and a space at the second. *)
Lemma clean_text_twice_differs :
  clean_text [0x61; 0xF7; 0x62] = lit "a/b"
  /\ clean_text (clean_text [0x61; 0xF7; 0x62]) = lit "a b".
Proof. split; reflexivity. Qed.

End CleanTextFacts.

(* ================================================================= *)
(** * More on the homoglyph resolver *)

Module HomoglyphMore.
Import Py PyFacts Homoglyph.

Lemma intersects_map (f : char -> char) (w s : str) :
  (forall c, mem (f c) s = false) -> intersects (map f w) s = false.
Proof.
  intros H. unfold intersects. induction w as [|c w IH]; simpl;
    [reflexivity|].
  now rewrite H, IH.
Qed.

Lemma to_latin_char_clean (c : char) :
  mem (table_get (maketrans cyrillic_chars latin_chars) c) cyrillic_chars
  = false.
Proof.
  destruct (mem c cyrillic_chars) eqn:E.
  - apply mem_true_iff in E. apply negb_true_iff. revert c E.
    apply forallb_forall. reflexivity.
  - rewrite translate_miss; [assumption | now apply mem_false_iff].
Qed.

Lemma to_cyrillic_char_clean (c : char) :
  mem (table_get (maketrans latin_chars cyrillic_chars) c) latin_chars
  = false.
Proof.
  destruct (mem c latin_chars) eqn:E.
  - apply mem_true_iff in E. apply negb_true_iff. revert c E.
    apply forallb_forall. reflexivity.
  - rewrite translate_miss; [assumption | now apply mem_false_iff].
Qed.

(** X1. [convert_to_latin] leaves none of the Cyrillic letters that have a
    Latin twin in its result, and [convert_to_cyrillic] none of the Latin
    letters that have a Cyrillic twin. *)
Theorem conversion_leaves_no_twin (w : str) :
  intersects (convert_to_latin w) cyrillic_chars = false
  /\ intersects (convert_to_cyrillic w) latin_chars = false.
Proof.
  split; apply intersects_map;
    [apply to_latin_char_clean | apply to_cyrillic_char_clean].
Qed.

(** X2. Each of the two conversions keeps the length of the word and
    changes nothing when it is applied again. *)
Theorem conversion_idempotent (w : str) :
  convert_to_latin (convert_to_latin w) = convert_to_latin w
  /\ convert_to_cyrillic (convert_to_cyrillic w) = convert_to_cyrillic w
  /\ length (convert_to_latin w) = length w
  /\ length (convert_to_cyrillic w) = length w.
Proof.
  unfold convert_to_latin, convert_to_cyrillic, translate.
  rewrite !map_map, !length_map. repeat split.
  - apply map_ext. intros c. apply translate_miss, mem_false_iff,
      to_latin_char_clean.
  - apply map_ext. intros c. apply translate_miss, mem_false_iff,
      to_cyrillic_char_clean.
Qed.

Lemma intersects_true (w s : str) :
  intersects w s = true <-> exists c, In c w /\ mem c s = true.
Proof. unfold intersects. apply existsb_exists. Qed.

Lemma intersects_incl (w t s : str) :
  (forall c, In c w -> In c t) ->
  intersects w s = true -> intersects t s = true.
Proof.
  rewrite !intersects_true. intros H [c [Hc Hm]]. exists c. auto.
Qed.

Lemma intersects_subset (w s t : str) :
  (forall c, mem c s = true -> mem c t = true) ->
  intersects w s = true -> intersects w t = true.
Proof.
  rewrite !intersects_true. intros H [c [Hc Hm]]. exists c. auto.
Qed.

Lemma startswith_refl (w : str) : startswith w w = true.
Proof.
  induction w as [|c w IH]; simpl; [reflexivity|].
  now rewrite N.eqb_refl, IH.
Qed.

Lemma startswith_same_length (old text : str) :
  length old = length text -> startswith old text = true -> old = text.
Proof.
  revert text. induction old as [|a old IH]; intros [|b text]; simpl;
    try discriminate; [reflexivity|].
  intros Hl H. apply andb_true_iff in H. destruct H as [Hab H].
  apply N.eqb_eq in Hab. f_equal; [assumption|]. apply IH; congruence.
Qed.

Lemma startswith_length (old text : str) :
  startswith old text = true -> (length old <= length text)%nat.
Proof.
  revert text. induction old as [|a old IH]; intros [|b text]; simpl;
    try discriminate; try lia.
  intros H. apply andb_true_iff in H. destruct H as [_ H].
  apply IH in H. lia.
Qed.

(** A text shorter than the word searched for is left as it is. *)
Lemma replace1_short (old new text : str) :
  (length text < length old)%nat -> replace1 old new text = text.
Proof.
  induction text as [|c text IH]; intros H.
  - simpl. destruct old; [simpl in H; lia | reflexivity].
  - simpl. destruct (startswith old (c :: text)) eqn:E.
    + apply startswith_length in E. lia.
    + rewrite IH; [reflexivity | simpl in H; lia].
Qed.

Lemma replace1_other (old new text : str) :
  length old = length text -> old <> text -> replace1 old new text = text.
Proof.
  intros Hl Hne. destruct text as [|c text].
  - destruct old; [congruence | discriminate].
  - simpl. destruct (startswith old (c :: text)) eqn:E.
    + now apply startswith_same_length in E.
    + rewrite replace1_short; [reflexivity | simpl in Hl; lia].
Qed.

Lemma replace1_whole (w new : str) : replace1 w new w = new.
Proof.
  destruct w as [|c w]; simpl; [apply app_nil_r|].
  rewrite N.eqb_refl, startswith_refl. simpl.
  now rewrite skipn_all, app_nil_r.
Qed.

Section Words.
Variable isalnum : char -> bool.

(** The characters of the words that are found are characters of the
    text. *)
Lemma scan_words_chars (s : str) :
  forall cur w c,
    In w (scan_words isalnum cur s) -> In c w ->
    In c s \/ match cur with
              | Some (w0, pend) => In c w0 \/ In c pend
              | None => False
              end.
Proof.
  induction s as [|x s IH]; intros cur w c Hw Hc; simpl in Hw.
  - destruct cur as [[w0 pend]|]; [|destruct Hw].
    destruct Hw as [<-|[]]. auto.
  - destruct cur as [[w0 pend]|].
    + destruct (is_w isalnum x).
      * destruct (IH _ w c Hw Hc) as [H|[H|[]]]; [simpl; auto|].
        rewrite !in_app_iff in H. simpl in *. intuition.
      * destruct (x =? 0x27).
        -- destruct (IH _ w c Hw Hc) as [H|[H|H]]; [simpl; auto|auto|].
           rewrite in_app_iff in H. simpl in *. intuition.
        -- destruct Hw as [<-|Hw]; [auto|].
           destruct (IH _ w c Hw Hc) as [H|[]]. simpl; auto.
    + destruct (is_w isalnum x).
      * destruct (IH _ w c Hw Hc) as [H|[H|[]]]; simpl in *; intuition.
      * destruct (IH _ w c Hw Hc) as [H|[]]. simpl; auto.
Qed.

Lemma fold_fix_word_unchanged (words : list str) (text : str) :
  (forall w, In w words -> fix_word isalnum text w = text) ->
  fold_left (fix_word isalnum) words text = text.
Proof.
  induction words as [|w words IH]; simpl; intros H; [reflexivity|].
  rewrite (H w (or_introl eq_refl)). apply IH. intros w' Hw'.
  apply H. now right.
Qed.

(** X3. A text that does not hold letters of both alphabets, by the
    resolver's own test, is returned as it is. *)
Theorem single_alphabet_text_unchanged (text : str) :
  is_valid_alphabet_mix text = true ->
  fix_homoglyph_errors isalnum text = text.
Proof.
  intros Hv. unfold fix_homoglyph_errors. apply fold_fix_word_unchanged.
  intros w Hw. unfold fix_word.
  assert (forall c, In c w -> In c text) as Hsub.
  { intros c Hc. unfold findall_words in Hw.
    destruct (scan_words_chars text None w c Hw Hc) as [H|[]]. exact H. }
  replace (is_valid_alphabet_mix w) with true; [reflexivity|].
  symmetry. unfold is_valid_alphabet_mix in *.
  apply negb_true_iff. apply negb_true_iff in Hv.
  apply andb_false_iff in Hv.
  destruct (intersects w full_cyrillic) eqn:E1; [|reflexivity].
  destruct (intersects w full_latin) eqn:E2; [|reflexivity].
  apply (intersects_incl w text) in E1, E2; try assumption.
  destruct Hv; congruence.
Qed.

(** A text that is one word is found as that word. *)
Lemma scan_one_word (r acc : str) :
  forallb (is_w isalnum) r = true ->
  scan_words isalnum (Some (acc, [])) r = [acc ++ r].
Proof.
  revert acc. induction r as [|c r IH]; intros acc H; simpl.
  - now rewrite app_nil_r.
  - cbn [forallb] in H. apply andb_true_iff in H. destruct H as [Hc Hr].
    rewrite Hc, (IH _ Hr). cbn [app]. now rewrite <- app_assoc.
Qed.

Lemma findall_one_word (word : str) :
  word <> [] -> forallb (is_w isalnum) word = true ->
  findall_words isalnum word = [word].
Proof.
  destruct word as [|c r]; [congruence|]. intros _ H.
  unfold findall_words. cbn [scan_words forallb] in *.
  apply andb_true_iff in H. destruct H as [Hc Hr].
  rewrite Hc. exact (scan_one_word r [c] Hr).
Qed.

Lemma mixed_word_invalid (word : str) :
  intersects word full_cyrillic = true ->
  intersects word full_latin = true ->
  is_valid_alphabet_mix word = false.
Proof.
  intros H1 H2. unfold is_valid_alphabet_mix. now rewrite H1, H2.
Qed.

Lemma subset_by_check (s t : str) :
  forallb (fun c => mem c t) s = true ->
  forall c, mem c s = true -> mem c t = true.
Proof.
  intros H c Hc. rewrite forallb_forall in H. apply H.
  now apply mem_true_iff.
Qed.

(** X5. A word with a letter that only Cyrillic has, with Latin twins and
    without a letter that only Latin has, is returned in Cyrillic when it is
    the whole text. *)
Theorem cyrillic_word_repaired (word : str) :
  word <> [] -> forallb (is_w isalnum) word = true ->
  intersects word special_cyrillic = true ->
  intersects word latin_chars = true ->
  intersects word special_latin = false ->
  fix_homoglyph_errors isalnum word = convert_to_cyrillic word.
Proof.
  intros Hne Hw H1 H2 H3. unfold fix_homoglyph_errors.
  rewrite (findall_one_word word Hne Hw). simpl.
  rewrite HomoglyphFacts.fix_word_without_roman.
  rewrite mixed_word_invalid, H1, H2, H3; [apply replace1_whole| |].
  - revert H1. apply intersects_subset, subset_by_check. reflexivity.
  - revert H2. apply intersects_subset, subset_by_check. reflexivity.
Qed.

Lemma to_latin_changes (word : str) :
  intersects word cyrillic_chars = true -> convert_to_latin word <> word.
Proof.
  intros H E. apply intersects_true in H. destruct H as [c [Hc Hm]].
  assert (intersects (convert_to_latin word) cyrillic_chars = true) as X.
  { rewrite E. apply intersects_true. eauto. }
  assert (intersects (convert_to_latin word) cyrillic_chars = false) as Y
    by (apply intersects_map, to_latin_char_clean).
  congruence.
Qed.

(** X6. A word with a letter that only Latin has, with Cyrillic twins and
    without a letter that only Cyrillic has, is returned in Latin when it is
    the whole text, and without any highlighting: the word the highlighting
    looks for is no longer there. *)
Theorem latin_word_repaired (word : str) :
  word <> [] -> forallb (is_w isalnum) word = true ->
  intersects word special_latin = true ->
  intersects word cyrillic_chars = true ->
  intersects word special_cyrillic = false ->
  fix_homoglyph_errors isalnum word = convert_to_latin word.
Proof.
  intros Hne Hw H1 H2 H3. unfold fix_homoglyph_errors.
  rewrite (findall_one_word word Hne Hw). simpl.
  rewrite HomoglyphFacts.fix_word_without_roman.
  rewrite mixed_word_invalid, H1, H2, H3.
  - simpl. rewrite replace1_whole.
    assert (replace1 word (highlight_mismatched_chars word)
                     (convert_to_latin word) = convert_to_latin word) as R.
    { apply replace1_other.
      - unfold convert_to_latin, translate. now rewrite length_map.
      - intros E. symmetry in E. revert E. now apply to_latin_changes. }
    rewrite R. now destruct (Nat.ltb _ _).
  - revert H2. apply intersects_subset, subset_by_check. reflexivity.
  - revert H1. apply intersects_subset, subset_by_check. reflexivity.
Qed.

End Words.

(** ** Highlighting *)

Lemma twins_disjoint (c : char) :
  mem c latin_chars = true -> mem c cyrillic_chars = false.
Proof.
  intros H. apply mem_true_iff in H. apply negb_true_iff. revert c H.
  apply forallb_forall. reflexivity.
Qed.

Lemma twin_cases (c : char) :
  (is_homoglyph c = false /\ mem c latin_chars = false
   /\ mem c cyrillic_chars = false)
  \/ (is_homoglyph c = true /\ mem c latin_chars = true
      /\ mem c cyrillic_chars = false)
  \/ (is_homoglyph c = true /\ mem c latin_chars = false
      /\ mem c cyrillic_chars = true).
Proof.
  unfold is_homoglyph. destruct (mem c latin_chars) eqn:E1.
  - rewrite (twins_disjoint c E1). auto.
  - destruct (mem c cyrillic_chars); auto.
Qed.

(** X4. Highlighting keeps the letters that have a twin, each in one pair
    of tags, and drops every other character of the word: the result is
    that of the word reduced to those letters, eight characters for each of
    them, ten with the tags of the in-context form. *)
Theorem highlight_drops_other_chars (word : str) :
  highlight_mismatched_chars word
  = highlight_mismatched_chars (filter is_homoglyph word)
  /\ length (highlight_mismatched_chars word)
     = (8 * length (filter is_homoglyph word))%nat
  /\ length (highlight_mismatched_in_context word)
     = (10 * length (filter is_homoglyph word))%nat.
Proof.
  unfold highlight_mismatched_chars, highlight_mismatched_in_context.
  induction word as [|c word [IH1 [IH2 IH3]]]; [repeat split|].
  cbn [flat_map filter]. rewrite !length_app, IH2, IH3, IH1.
  destruct (twin_cases c) as [[H [H1 H2]]|[[H [H1 H2]]|[H [H1 H2]]]];
    rewrite H, H1, H2; cbn [flat_map]; rewrite ?H1, ?H2;
    set (t := flat_map _ (filter is_homoglyph word));
    set (n := length (filter is_homoglyph word));
    repeat split; simpl; lia.
Qed.

(** The word of the Cyrillic letters 0x428 0x435 0x432 has no Latin
    letter. *)
Lemma single_alphabet_text_unchanged_witness :
  fix_homoglyph_errors Examples.letters_and_digits [0x428; 0x435; 0x432]
  = [0x428; 0x435; 0x432].
Proof.
  apply (single_alphabet_text_unchanged Examples.letters_and_digits).
  reflexivity.
Defined.

(** The Cyrillic letter 0x416 followed by a Latin a. *)
Lemma cyrillic_word_repaired_witness :
  fix_homoglyph_errors Examples.letters_and_digits [0x416; 0x61]
  = [0x416; 0x430].
Proof.
  apply (cyrillic_word_repaired Examples.letters_and_digits [0x416; 0x61]);
    [discriminate | reflexivity | reflexivity | reflexivity | reflexivity].
Defined.

(** A Latin u followed by a Cyrillic a. *)
Lemma latin_word_repaired_witness :
  fix_homoglyph_errors Examples.letters_and_digits [0x75; 0x430]
  = lit "ua".
Proof.
  apply (latin_word_repaired Examples.letters_and_digits [0x75; 0x430]);
    [discriminate | reflexivity | reflexivity | reflexivity | reflexivity].
Defined.

End HomoglyphMore.

(* ================================================================= *)
(** * More on the validators and on the text normaliser *)

Module NormalizeMore.
Import Py PyFacts Re ReFacts Normalize NormalizeFacts CleanTextFacts.

Lemma year_kept (y : str) : year y -> forallb date_char y = true.
Proof.
  intros [_ H]. apply forallb_forall. intros c Hc.
  rewrite forallb_forall in H. unfold date_char. now rewrite (H c Hc).
Qed.

Lemma forallb_filter_id {A} (f : A -> bool) (l : list A) :
  forallb f l = true -> filter f l = l.
Proof.
  intros H. apply filter_all. now apply forallb_forall.
Qed.

Section Digits.

Variable isdecimal : char -> bool.
Hypothesis isdecimal_ascii :
  forall c, c < 128 -> isdecimal c = is_ascii_digit c.

Lemma dates_forms (date_text : str) :
  let out := normalize_dates isdecimal date_text in
  out = [] \/ year out
  \/ (exists y1 y2, year y1 /\ year y2 /\ out = y1 ++ [0x2D] ++ y2)
  \/ (exists y, year y /\ out = y ++ [0x2D]).
Proof.
  cbv zeta. rewrite (normalize_dates_chain isdecimal).
  cbv zeta. pose proof (kept_date_chars date_text) as Hk.
  set (kept := filter date_char date_text) in *. clearbody kept.
  destruct (fullmatch (year_or_range isdecimal) kept) eqn:E1.
  { apply (year_or_range_iff isdecimal isdecimal_ascii kept Hk) in E1.
    tauto. }
  destruct (fullmatch (year_open isdecimal) kept) eqn:E2.
  { apply (year_open_iff isdecimal isdecimal_ascii kept Hk) in E2.
    tauto. }
  destruct (fullmatch (year_uncertain isdecimal) kept) eqn:E3;
    [|now left].
  apply (year_uncertain_iff isdecimal isdecimal_ascii kept Hk) in E3.
  destruct E3 as [y [Hy ->]]. rewrite removelast_last. auto.
Qed.

(** X7. What [normalize_dates] returns is empty, a year, two years joined
    by a hyphen or a year followed by a hyphen: it never holds a question
    mark. *)
Theorem normalize_dates_result (date_text : str) :
  let out := normalize_dates isdecimal date_text in
  (out = [] \/ year out
   \/ (exists y1 y2, year y1 /\ year y2 /\ out = y1 ++ [0x2D] ++ y2)
   \/ (exists y, year y /\ out = y ++ [0x2D]))
  /\ ~ In 0x3F out.
Proof.
  cbv zeta. pose proof (dates_forms date_text) as F. cbv zeta in F.
  split; [exact F|].
  assert (forall y, year y -> ~ In 0x3F y) as Y.
  { intros y [_ Hy] Hin. rewrite forallb_forall in Hy.
    specialize (Hy _ Hin). discriminate. }
  destruct F as [->|[Hy|[[y1 [y2 [H1 [H2 ->]]]]|[y [Hy ->]]]]].
  - intros [].
  - now apply Y.
  - rewrite !in_app_iff. simpl. intros [H|[[H|[]]|H]];
      [now apply (Y y1) | discriminate | now apply (Y y2)].
  - rewrite in_app_iff. simpl. intros [H|[H|[]]];
      [now apply (Y y) | discriminate].
Qed.

(** X8. A date that went through [normalize_dates] is returned as it is by
    a second run. *)
Theorem normalize_dates_idempotent (date_text : str) :
  normalize_dates isdecimal (normalize_dates isdecimal date_text)
  = normalize_dates isdecimal date_text.
Proof.
  pose proof (dates_forms date_text) as F. cbv zeta in F.
  set (out := normalize_dates isdecimal date_text) in *. clearbody out.
  assert (forall s, forallb date_char s = true -> date_shape s s ->
                    normalize_dates isdecimal s = s) as K.
  { intros s Hs Hd.
    apply (normalize_dates_of_shape isdecimal isdecimal_ascii).
    now rewrite (forallb_filter_id _ _ Hs). }
  destruct F as [->|[Hy|[[y1 [y2 [H1 [H2 ->]]]]|[y [Hy ->]]]]].
  - reflexivity.
  - apply K; [now apply year_kept | now constructor].
  - apply K; [|now constructor].
    rewrite forallb_app, (year_kept y1 H1). cbn [app forallb].
    now rewrite (year_kept y2 H2).
  - apply K; [|now constructor].
    rewrite forallb_app, (year_kept y Hy). reflexivity.
Qed.

End Digits.

Lemma normalize_dates_result_witness :
  (forall c, c < 128 -> is_ascii_digit c = is_ascii_digit c)
  /\ ~ In 0x3F (normalize_dates is_ascii_digit (lit "1871?")).
Proof.
  split; [reflexivity|].
  apply (normalize_dates_result is_ascii_digit (fun c _ => eq_refl)
           (lit "1871?")).
Defined.

Lemma normalize_dates_idempotent_witness :
  (forall c, c < 128 -> is_ascii_digit c = is_ascii_digit c)
  /\ normalize_dates is_ascii_digit
       (normalize_dates is_ascii_digit (lit "ca. 1871?"))
     = normalize_dates is_ascii_digit (lit "ca. 1871?").
Proof.
  split; [reflexivity|].
  apply (normalize_dates_idempotent is_ascii_digit (fun c _ => eq_refl)).
Defined.

Lemma filter_twice {A} (f : A -> bool) (l : list A) :
  filter f (filter f l) = filter f l.
Proof.
  apply filter_all. intros x Hx. now apply filter_In in Hx.
Qed.

(** X9. An ISNI that went through [normalize_isni] is returned as it is by
    a second run, whatever the decimal digits are. *)
Theorem normalize_isni_idempotent (isdecimal : char -> bool) (isni : str) :
  normalize_isni isdecimal (normalize_isni isdecimal isni)
  = normalize_isni isdecimal isni.
Proof.
  assert (normalize_isni isdecimal isni = []
          \/ exists s, normalize_isni isdecimal isni
                       = filter (isni_char isdecimal) s
                       /\ is_valid_isni isdecimal
                            (filter (isni_char isdecimal) s) = true) as H.
  { unfold normalize_isni. destruct isni as [|c0 isni]; [now left|].
    destruct (is_valid_isni isdecimal _) eqn:E; [right; eauto | now left]. }
  destruct H as [->|[s [-> E]]]; [reflexivity|].
  unfold normalize_isni.
  destruct (filter (isni_char isdecimal) s) as [|k kept'] eqn:Ek;
    [reflexivity|].
  rewrite <- Ek in E |- *. now rewrite filter_twice, E.
Qed.

(** ** The characters of a cleaned text *)

Lemma char_pipeline_output (c d : char) :
  In d (char_pipeline c) -> mem d removed_chars = false.
Proof.
  intros Hd. destruct (mem c table_chars) eqn:Hm.
  - apply mem_true_iff in Hm.
    assert (forallb (fun c => forallb (fun d => negb (mem d removed_chars))
                                      (char_pipeline c))
                    table_chars = true) as T by (vm_compute; reflexivity).
    rewrite forallb_forall in T. specialize (T c Hm).
    rewrite forallb_forall in T. now apply negb_true_iff, T.
  - apply mem_false_iff in Hm.
    rewrite (char_pipeline_miss c Hm) in Hd. destruct Hd as [<-|[]].
    apply mem_false_iff. intros H. apply Hm.
    unfold removed_chars in H. unfold table_chars.
    rewrite !in_app_iff in *. tauto.
Qed.

(** X10. A cleaned text holds no control character, no white space other
    than the plain space, and none of the characters that the first steps
    replace or delete: superscript and subscript digits, the letters of
    [char_conversion] and the characters of [chars_to_delete]. *)
Theorem clean_text_characters (text : str) (c : char) :
  In c (clean_text text) ->
  is_control c = false
  /\ (isspace c = true -> c = 0x20)
  /\ mem c removed_chars = false.
Proof.
  rewrite clean_text_chain. destruct (strip text) as [|c0 rest]; [intros []|].
  intros H. apply filter_In in H. destruct H as [H Hc].
  apply negb_true_iff in Hc. split; [assumption|].
  apply strip_In, sub_spaces_In in H.
  destruct H as [->|[H Hs]]; [split; reflexivity|].
  split; [congruence|].
  apply in_flat_map in H. destruct H as [x [_ Hx]].
  now apply (char_pipeline_output x c).
Qed.

(** The text of a digit, a multiplication sign, a superscript two and a
    copyright sign is cleaned to "3x2". *)
Lemma clean_text_characters_witness :
  In 0x78 (clean_text [0x33; 0xD7; 0xB2; 0xA9])
  /\ is_control 0x78 = false /\ mem 0x78 removed_chars = false.
Proof.
  assert (In 0x78 (clean_text [0x33; 0xD7; 0xB2; 0xA9])) as H
    by (vm_compute; auto).
  split; [exact H|].
  destruct (clean_text_characters [0x33; 0xD7; 0xB2; 0xA9] 0x78 H)
    as [H1 [_ H3]].
  split; assumption.
Defined.

Lemma char_pipeline_length (c : char) : (length (char_pipeline c) <= 2)%nat.
Proof.
  destruct (mem c table_chars) eqn:Hm.
  - apply mem_true_iff in Hm. apply Nat.leb_le. revert c Hm.
    apply forallb_forall. vm_compute. reflexivity.
  - apply mem_false_iff in Hm. rewrite (char_pipeline_miss c Hm).
    simpl. lia.
Qed.

Lemma sub_spaces_length (b : bool) (s : str) :
  (length (sub_spaces b s) <= length s)%nat.
Proof.
  revert b. induction s as [|c s IH]; intros b; simpl; [lia|].
  destruct (isspace c); [destruct b|]; simpl;
    [specialize (IH true) | specialize (IH true) | specialize (IH false)];
    lia.
Qed.

Lemma lstrip_length (s : str) : (length (lstrip s) <= length s)%nat.
Proof.
  induction s as [|c s IH]; simpl; [lia|].
  destruct (isspace c); simpl; lia.
Qed.

Lemma rstrip_length (s : str) : (length (rstrip s) <= length s)%nat.
Proof.
  induction s as [|c s IH]; simpl; [lia|].
  destruct (rstrip s); [destruct (isspace c)|]; simpl in *; lia.
Qed.

(** X11. A cleaned text is at most twice as long as the raw text: a
    character is deleted, kept, or replaced by one or two characters. *)
Theorem clean_text_length (text : str) :
  (length (clean_text text) <= 2 * length text)%nat.
Proof.
  rewrite clean_text_chain. destruct (strip text) as [|c0 rest];
    [simpl; lia|].
  pose proof (filter_length_le (fun c => negb (is_control c))
                (strip (sub_spaces false (flat_map char_pipeline text)))).
  pose proof (rstrip_length
                (lstrip (sub_spaces false (flat_map char_pipeline text)))).
  pose proof (lstrip_length (sub_spaces false (flat_map char_pipeline text))).
  pose proof (sub_spaces_length false (flat_map char_pipeline text)).
  assert (length (flat_map char_pipeline text) <= 2 * length text)%nat.
  { clear. induction text as [|c text IH]; simpl; [lia|].
    rewrite length_app. pose proof (char_pipeline_length c). lia. }
  unfold strip in *. lia.
Qed.

End NormalizeMore.

(* ================================================================= *)
(** * Initials *)

Module InitialsFacts.
Import Py PyFacts Normalize.

Section Splitting.

Variable is_sep : char -> bool.

Lemma split_by_nonnil (s : str) : split_by is_sep s <> [].
Proof.
  destruct s as [|c s]; simpl; [discriminate|].
  destruct (is_sep c); [discriminate|].
  destruct (split_by is_sep s); discriminate.
Qed.

(** No piece holds a separator, and the pieces are made of the characters
    of the string. *)
Lemma split_by_pieces (s piece : str) (c : char) :
  In piece (split_by is_sep s) -> In c piece ->
  is_sep c = false /\ In c s.
Proof.
  revert piece. induction s as [|x s IH]; intros piece Hp Hc; simpl in Hp.
  - destruct Hp as [<-|[]]. destruct Hc.
  - destruct (is_sep x) eqn:E.
    + destruct Hp as [<-|Hp]; [destruct Hc|].
      destruct (IH piece Hp Hc). simpl. auto.
    + destruct (split_by is_sep s) as [|p ps] eqn:S.
      * destruct Hp as [<-|[]]. destruct Hc as [<-|[]]. simpl. auto.
      * destruct Hp as [<-|Hp].
        -- destruct Hc as [<-|Hc]; [simpl; auto|].
           destruct (IH p (or_introl eq_refl) Hc). simpl. auto.
        -- destruct (IH piece (or_intror Hp) Hc). simpl. auto.
Qed.

Lemma split_by_no_sep (s : str) :
  (forall c, In c s -> is_sep c = false) -> split_by is_sep s = [s].
Proof.
  induction s as [|x s IH]; intros H; simpl; [reflexivity|].
  rewrite (H x (or_introl eq_refl)), IH; [reflexivity|].
  intros c Hc. apply H. now right.
Qed.

Lemma split_by_app_sep (s t : str) (sep : char) :
  (forall c, In c s -> is_sep c = false) -> is_sep sep = true ->
  split_by is_sep (s ++ sep :: t) = s :: split_by is_sep t.
Proof.
  intros H Hsep. induction s as [|x s IH]; simpl.
  - now rewrite Hsep.
  - rewrite (H x (or_introl eq_refl)), IH; [reflexivity|].
    intros c Hc. apply H. now right.
Qed.

(** Splitting what was joined gives the pieces back. *)
Lemma split_by_join (sep : char) (pieces : list str) :
  pieces <> [] -> is_sep sep = true ->
  (forall piece c, In piece pieces -> In c piece -> is_sep c = false) ->
  split_by is_sep (join [sep] pieces) = pieces.
Proof.
  intros Hne Hsep. induction pieces as [|x pieces IH]; [congruence|].
  intros H. destruct pieces as [|y pieces].
  - simpl. apply split_by_no_sep. intros c Hc. apply (H x); simpl; auto.
  - change (join [sep] (x :: y :: pieces))
      with (x ++ sep :: join [sep] (y :: pieces)).
    rewrite split_by_app_sep; [|intros c Hc; apply (H x); simpl; auto
                               |assumption].
    f_equal. apply IH; [discriminate|].
    intros piece c Hp Hc. apply (H piece c); [now right | assumption].
Qed.

Lemma split_by_snoc_sep (s : str) (sep : char) :
  is_sep sep = true ->
  split_by is_sep (s ++ [sep]) = split_by is_sep s ++ [[]].
Proof.
  intros Hsep. induction s as [|x s IH]; simpl.
  - now rewrite Hsep.
  - rewrite IH. destruct (is_sep x); [reflexivity|].
    pose proof (split_by_nonnil s) as N.
    destruct (split_by is_sep s); [congruence | reflexivity].
Qed.

Lemma split_by_snoc_other (s : str) (c : char) :
  is_sep c = false ->
  exists front final,
    split_by is_sep s = front ++ [final]
    /\ split_by is_sep (s ++ [c]) = front ++ [final ++ [c]].
Proof.
  intros Hc. induction s as [|x s [front [final [E1 E2]]]]; simpl.
  - rewrite Hc. exists [], []. auto.
  - rewrite E1, E2. destruct (is_sep x).
    + exists ([] :: front), final. auto.
    + destruct front as [|p front]; simpl.
      * exists [], (x :: final). auto.
      * exists ((x :: p) :: front), final. auto.
Qed.

End Splitting.

Lemma all_some_app_none {A} (l : list (option A)) (r : list (option A)) :
  all_some (l ++ None :: r) = None.
Proof.
  induction l as [|[x|] l IH]; simpl; [reflexivity| |reflexivity].
  now rewrite IH.
Qed.

Lemma all_some_map {A B} (g : A -> option B) (h : A -> B) (l : list A) :
  (forall x, In x l -> g x = Some (h x)) ->
  all_some (map g l) = Some (map h l).
Proof.
  induction l as [|x l IH]; intros H; simpl; [reflexivity|].
  rewrite (H x (or_introl eq_refl)), IH; [reflexivity|].
  intros y Hy. apply H. now right.
Qed.

Lemma all_some_inv {A} (l : list (option A)) (out : list A) :
  all_some l = Some out -> l = map Some out.
Proof.
  revert out. induction l as [|[x|] l IH]; intros out; simpl.
  - now intros [= <-].
  - destruct (all_some l) as [o|]; simpl; [|discriminate].
    intros [= <-]. simpl. f_equal. now apply IH.
  - discriminate.
Qed.

Lemma join_chars (sep : str) (pieces : list str) (c : char) :
  In c (join sep pieces) ->
  In c sep \/ exists piece, In piece pieces /\ In c piece.
Proof.
  induction pieces as [|x pieces IH]; [intros []|].
  destruct pieces as [|y pieces].
  - simpl. intros H. right. exists x. auto.
  - change (join sep (x :: y :: pieces))
      with (x ++ sep ++ join sep (y :: pieces)).
    rewrite !in_app_iff. intros [H|[H|H]].
    + right. exists x. simpl. auto.
    + now left.
    + destruct (IH H) as [?|[piece [Hp Hc]]]; [now left|].
      right. exists piece. split; [now right | assumption].
Qed.

Lemma join_nonempty (sep : str) (x : str) (pieces : list str) :
  x <> [] -> join sep (x :: pieces) <> [].
Proof.
  intros Hx. destruct pieces; simpl; [assumption|].
  destruct x; [congruence | discriminate].
Qed.

Lemma forallb_filter_id_local {A} (f : A -> bool) (l : list A) :
  forallb f l = true -> filter f l = l.
Proof.
  induction l as [|x l IH]; simpl; [reflexivity|].
  intros H. apply andb_true_iff in H. destruct H as [Hx Hl].
  now rewrite Hx, IH.
Qed.

(** ** What raises *)

(** X12. A forename that starts or ends with a hyphen makes
    [convert_to_initials] raise: the part before or after the hyphen is
    empty and has no first character. *)
Theorem initials_raise_on_outer_hyphen (p : str) :
  convert_to_initials (0x2D :: p) = None
  /\ convert_to_initials (p ++ [0x2D]) = None.
Proof.
  split.
  - unfold convert_to_initials, split_ws. cbn [split_by].
    change (isspace 0x2D) with false. cbv iota.
    pose proof (split_by_nonnil isspace p) as N.
    destruct (split_by isspace p) as [|piece pieces]; [congruence|].
    cbn [filter nonempty map]. unfold word_initials at 1.
    cbn [split_by]. rewrite N.eqb_refl. reflexivity.
  - unfold convert_to_initials.
    destruct (p ++ [0x2D]) as [|c0 r0] eqn:E;
      [now destruct p|]. rewrite <- E. clear E.
    destruct (split_by_snoc_other isspace p 0x2D eq_refl)
      as [front [final [_ E2]]].
    unfold split_ws. unfold str, char in *. rewrite E2, filter_app.
    cbn [filter].
    replace (nonempty (final ++ [0x2D])) with true
      by (now destruct final).
    rewrite map_app. cbn [map].
    replace (word_initials (final ++ [0x2D])) with (@None str).
    + now rewrite all_some_app_none.
    + unfold word_initials.
      pose proof (split_by_snoc_sep (N.eqb 0x2D) final 0x2D eq_refl) as E3.
      unfold str, char in *. rewrite E3, map_app.
      cbn [map part_initial]. now rewrite all_some_app_none.
Qed.

(** X13. A forename without any hyphen never raises: its initials are the
    first characters of its words, each with a dot, joined by spaces. *)
Theorem initials_without_hyphen (forename : str) :
  ~ In 0x2D forename ->
  convert_to_initials forename
  = Some (join (lit " ")
               (map (fun w => [hd 0 w; 0x2E]) (split_ws forename))).
Proof.
  intros Hno. unfold convert_to_initials.
  destruct forename as [|c0 r0] eqn:E; [reflexivity|]. rewrite <- E in *.
  clear E. rewrite (all_some_map _ (fun w => [hd 0 w; 0x2E]));
    [reflexivity|].
  intros w Hw. unfold split_ws in Hw. apply filter_In in Hw.
  destruct Hw as [Hw Hne]. unfold word_initials.
  rewrite split_by_no_sep.
  - destruct w; [discriminate | reflexivity].
  - intros c Hc. apply N.eqb_neq. intros <-.
    apply Hno. eapply split_by_pieces; eassumption.
Qed.

Lemma initials_without_hyphen_witness :
  ~ In 0x2D (lit " Jean  Paul ")
  /\ convert_to_initials (lit " Jean  Paul ") = Some (lit "J. P.").
Proof.
  assert (~ In 0x2D (lit " Jean  Paul ")) as H.
  { simpl. intuition discriminate. }
  split; [exact H|].
  exact (initials_without_hyphen (lit " Jean  Paul ") H).
Defined.

(** ** Initials of initials *)

Lemma word_initials_form (w o : str) :
  word_initials w = Some o ->
  exists inits,
    o = join [0x2D] inits /\ inits <> []
    /\ forall i, In i inits ->
                 exists c, i = [c; 0x2E] /\ In c w /\ c <> 0x2D.
Proof.
  unfold word_initials. intros H.
  destruct (all_some _) as [inits|] eqn:E; [|discriminate].
  injection H as <-. exists inits. apply all_some_inv in E.
  split; [reflexivity|]. split.
  - intros ->. simpl in E. apply map_eq_nil in E.
    now apply split_by_nonnil in E.
  - intros i Hi.
    assert (In (Some i) (map part_initial (split_by (N.eqb 0x2D) w))) as X
      by (rewrite E; now apply in_map).
    apply in_map_iff in X. destruct X as [part [Hp Hin]].
    destruct part as [|c r]; [discriminate|]. injection Hp as <-.
    exists c. split; [reflexivity|].
    destruct (split_by_pieces (N.eqb 0x2D) w (c :: r) c Hin
                              (or_introl eq_refl)) as [Hs Hw].
    split; [assumption|]. apply N.eqb_neq in Hs. congruence.
Qed.

Lemma word_initials_fixed (inits : list str) :
  inits <> [] ->
  (forall i, In i inits -> exists c, i = [c; 0x2E] /\ c <> 0x2D) ->
  word_initials (join [0x2D] inits) = Some (join [0x2D] inits).
Proof.
  intros Hne H. unfold word_initials.
  assert (split_by (N.eqb 0x2D) (join [0x2D] inits) = inits) as S.
  { apply (split_by_join (N.eqb 0x2D) 0x2D inits Hne eq_refl).
    intros i c Hi Hc. destruct (H i Hi) as [x [-> Hx]].
    destruct Hc as [<-|[<-|[]]]; [|reflexivity].
    apply N.eqb_neq. congruence. }
  unfold str, char in *. rewrite S.
  rewrite (all_some_map _ (fun i => i)); [now rewrite map_id|].
  intros i Hi. destruct (H i Hi) as [c [-> _]]. reflexivity.
Qed.

(** X14. The initials of initials are the same initials: what
    [convert_to_initials] returns is returned as it is by a second run. *)
Theorem initials_idempotent (forename out : str) :
  convert_to_initials forename = Some out ->
  convert_to_initials out = Some out.
Proof.
  unfold convert_to_initials at 1.
  destruct forename as [|c0 r0] eqn:E; [now intros [= <-]|].
  rewrite <- E. clear E c0 r0. intros H.
  destruct (all_some _) as [outs|] eqn:A; [|discriminate].
  injection H as <-. apply all_some_inv in A.
  assert (forall o, In o outs ->
            exists inits,
              o = join [0x2D] inits /\ inits <> []
              /\ forall i, In i inits ->
                   exists c, i = [c; 0x2E] /\ isspace c = false
                             /\ c <> 0x2D) as F.
  { intros o Ho.
    assert (In (Some o) (map word_initials (split_ws forename))) as X
      by (rewrite A; now apply in_map).
    apply in_map_iff in X. destruct X as [w [Hw Hin]].
    apply word_initials_form in Hw.
    destruct Hw as [inits [-> [Hne Hi]]]. exists inits.
    split; [reflexivity|]. split; [assumption|].
    intros i Hii. destruct (Hi i Hii) as [c [-> [Hc Hd]]].
    exists c. split; [reflexivity|]. split; [|assumption].
    unfold split_ws in Hin. apply filter_In in Hin. destruct Hin as [Hin _].
    eapply split_by_pieces; eassumption. }
  clear A. unfold convert_to_initials.
  destruct (join (lit " ") outs) as [|c1 r1] eqn:J; [reflexivity|].
  rewrite <- J. clear J c1 r1.
  destruct outs as [|o1 outs']; [reflexivity|].
  set (outs := o1 :: outs') in *.
  assert (split_ws (join (lit " ") outs) = outs) as S.
  { assert (split_by isspace (join [0x20] outs) = outs) as S.
    { apply (split_by_join isspace 0x20 outs); [discriminate|reflexivity|].
      intros o c Ho Hc. destruct (F o Ho) as [inits [-> [_ Hi]]].
      apply join_chars in Hc. destruct Hc as [[<-|[]]|[i [Hii Hc]]];
        [reflexivity|].
      destruct (Hi i Hii) as [x [-> [Hx _]]].
      destruct Hc as [<-|[<-|[]]]; [assumption | reflexivity]. }
    unfold split_ws. change (lit " ") with [0x20].
    unfold str, char in *. rewrite S.
    apply forallb_filter_id_local. apply forallb_forall. intros o Ho.
    destruct (F o Ho) as [inits [-> [Hne Hi]]].
    destruct inits as [|i inits]; [congruence|].
    destruct (Hi i (or_introl eq_refl)) as [c [-> _]].
    destruct inits; reflexivity. }
  rewrite S. rewrite (all_some_map _ (fun o => o)); [now rewrite map_id|].
  intros o Ho. destruct (F o Ho) as [inits [-> [Hne Hi]]].
  apply word_initials_fixed; [assumption|].
  intros i Hii. destruct (Hi i Hii) as [c [-> [_ Hd]]]. eauto.
Qed.

Lemma initials_idempotent_witness :
  convert_to_initials (lit "Jean-Paul Louis") = Some (lit "J.-P. L.")
  /\ convert_to_initials (lit "J.-P. L.") = Some (lit "J.-P. L.").
Proof.
  split; [reflexivity|].
  apply (initials_idempotent (lit "Jean-Paul Louis")). reflexivity.
Defined.

End InitialsFacts.

(* ================================================================= *)
(** * Languages *)

Module LanguageFacts.
Import Py PyFacts Homoglyph Normalize.

(** X15. [extract_lang] prefers a subfield $8 of three characters; what it
    returns has at most three characters; without such a subfield a field
    other than 200 and 400 gets no language, and a field 200 or 400 whose
    field 100 has one to nine characters gets the empty string. *)
Theorem extract_lang_cases (subfield_8 field_100a field_num : str) :
  (length subfield_8 = 3%nat ->
   extract_lang subfield_8 field_100a field_num = Some subfield_8)
  /\ (forall l, extract_lang subfield_8 field_100a field_num = Some l ->
                (length l <= 3)%nat)
  /\ (length subfield_8 <> 3%nat ->
      field_num <> lit "200" -> field_num <> lit "400" ->
      extract_lang subfield_8 field_100a field_num = None)
  /\ (length subfield_8 <> 3%nat ->
      field_num = lit "200" \/ field_num = lit "400" ->
      field_100a <> [] -> (length field_100a <= 9)%nat ->
      extract_lang subfield_8 field_100a field_num = Some []).
Proof.
  unfold extract_lang.
  destruct (Nat.eqb_spec (length subfield_8) 3) as [E|E].
  - replace (nonempty subfield_8) with true by (now destruct subfield_8).
    simpl. repeat split; try congruence. intros l [= <-]. lia.
  - rewrite andb_false_r. split; [congruence|]. split; [|split].
    + intros l. destruct (_ && _); [|discriminate]. intros [= H].
      assert (l = firstn 3 (skipn 9 field_100a)) as -> by (symmetry; exact H).
      rewrite length_firstn. lia.
    + intros _ H2 H4.
      replace (str_eqb field_num (lit "200")) with false
        by (symmetry; destruct (str_eqb _ _) eqn:X; [|reflexivity];
            now apply str_eqb_eq in X).
      replace (str_eqb field_num (lit "400")) with false
        by (symmetry; destruct (str_eqb _ _) eqn:X; [|reflexivity];
            now apply str_eqb_eq in X).
      reflexivity.
    + intros _ Hf Ha Hl.
      replace (str_eqb field_num (lit "200")
               || str_eqb field_num (lit "400")) with true
        by (symmetry; apply orb_true_iff;
            destruct Hf as [->| ->]; [left|right]; apply str_eqb_refl).
      replace (nonempty field_100a) with true by (now destruct field_100a).
      cbn [andb]. now rewrite skipn_all2.
Qed.

(** ** [process_language] *)

Lemma latin_twins_are_ascii (c : char) :
  isascii_alpha c = false -> ~ In c latin_chars.
Proof.
  intros H Hin.
  assert (forallb isascii_alpha latin_chars = true) as X by reflexivity.
  rewrite forallb_forall in X. rewrite (X c Hin) in H. discriminate.
Qed.

Lemma cyrillic_twins_not_ascii (c : char) :
  isascii_alpha c = true -> ~ In c cyrillic_chars.
Proof.
  intros H Hin.
  assert (forallb (fun c => negb (isascii_alpha c)) cyrillic_chars = true)
    as X by reflexivity.
  rewrite forallb_forall in X. specialize (X c Hin). rewrite H in X.
  discriminate.
Qed.

Lemma has_latin_false (w : str) (c : char) :
  has_latin w = false -> In c w -> isascii_alpha c = false.
Proof.
  unfold has_latin. intros H Hc. destruct (isascii_alpha c) eqn:E;
    [|reflexivity].
  assert (existsb isascii_alpha w = true) as X
    by (apply existsb_exists; eauto).
  congruence.
Qed.

(** Without an ASCII letter there is nothing to turn into Cyrillic. *)
Lemma to_cyrillic_without_latin (w : str) :
  has_latin w = false -> convert_to_cyrillic w = w.
Proof.
  intros H. unfold convert_to_cyrillic, translate.
  rewrite <- (map_id w) at 2. apply map_ext_in. intros c Hc.
  apply translate_miss, latin_twins_are_ascii.
  eapply has_latin_false; eassumption.
Qed.

Lemma to_latin_keeps_latin (w : str) :
  has_latin w = true -> has_latin (convert_to_latin w) = true.
Proof.
  unfold has_latin. rewrite !existsb_exists. intros [c [Hc Ha]].
  exists c. split; [|assumption]. unfold convert_to_latin, translate.
  apply in_map_iff. exists c. split; [|assumption].
  now apply translate_miss, cyrillic_twins_not_ascii.
Qed.

Lemma to_latin_twice (w : str) :
  convert_to_latin (convert_to_latin w) = convert_to_latin w.
Proof.
  unfold convert_to_latin, translate. rewrite map_map. apply map_ext.
  intros c. apply translate_miss, mem_false_iff,
    HomoglyphMore.to_latin_char_clean.
Qed.

(** X16. When none of the three names holds an ASCII letter,
    [process_language] returns the names as they are: the conversion to
    Cyrillic of its second branch never changes anything. *)
Theorem names_without_latin_unchanged
    (entryname initials given_name : str) (lang : option str) :
  has_latin entryname || has_latin initials || has_latin given_name = false ->
  fst (fst (process_language entryname initials given_name lang))
  = (entryname, initials, given_name).
Proof.
  intros H. unfold process_language. rewrite H.
  apply orb_false_iff in H. destruct H as [H Hg].
  apply orb_false_iff in H. destruct H as [He Hi].
  rewrite !to_cyrillic_without_latin by assumption.
  destruct (_ || _ || _); [|reflexivity].
  destruct (negb _); [|reflexivity].
  destruct (existsb (fun c => mem c ukrainian_marks) entryname);
    [reflexivity|].
  destruct (existsb (fun c => mem c russian_marks) entryname); reflexivity.
Qed.

Lemma names_without_latin_unchanged_witness :
  fst (fst (process_language [0x428; 0x435; 0x432] [0x422; 0x2E] []
                             (Some (lit "ukr"))))
  = ([0x428; 0x435; 0x432], [0x422; 0x2E], []).
Proof.
  apply (names_without_latin_unchanged [0x428; 0x435; 0x432] [0x422; 0x2E]
           [] (Some (lit "ukr"))).
  reflexivity.
Defined.

(** X17. When one of the three names holds an ASCII letter, the names are
    returned in Latin, no warning is logged, and the language returned is
    the given one if it is eng, pol or fra, and eng otherwise. *)
Theorem latin_names_language
    (entryname initials given_name : str) (lang : option str) :
  has_latin entryname || has_latin initials || has_latin given_name = true ->
  exists lang',
    process_language entryname initials given_name lang
    = ((convert_to_latin entryname, convert_to_latin initials,
        convert_to_latin given_name, Some lang'), false)
    /\ In lang' [lit "eng"; lit "pol"; lit "fra"]
    /\ (lang_in lang [lit "eng"; lit "pol"; lit "fra"] = true ->
        lang = Some lang')
    /\ (lang_in lang [lit "eng"; lit "pol"; lit "fra"] = false ->
        lang' = lit "eng").
Proof.
  intros H. unfold process_language. rewrite H.
  destruct (lang_in lang _) eqn:E; cbn [negb].
  - destruct lang as [l|]; [|discriminate]. exists l.
    split; [reflexivity|]. split; [|split; [reflexivity | discriminate]].
    unfold lang_in in E. apply existsb_exists in E.
    destruct E as [x [Hx E]]. apply str_eqb_eq in E. now subst.
  - exists (lit "eng"). split; [reflexivity|].
    split; [now left|]. split; [discriminate | reflexivity].
Qed.

(** A Latin entry name with a Cyrillic initial and the language ukr, which
    is not one of the three: the initial is put in Latin and the language
    becomes eng. *)
Lemma latin_names_language_witness :
  has_latin (lit "Shevchenko") || has_latin [0x422; 0x2E] || has_latin []
  = true
  /\ process_language (lit "Shevchenko") [0x422; 0x2E] []
                      (Some (lit "ukr"))
     = ((lit "Shevchenko", lit "T.", [], Some (lit "eng")), false).
Proof.
  split; [reflexivity|].
  destruct (latin_names_language (lit "Shevchenko") [0x422; 0x2E] []
              (Some (lit "ukr")) eq_refl) as [l [E [_ [_ H]]]].
  rewrite E, (H eq_refl). reflexivity.
Defined.

(** X18. When no name holds an ASCII letter and one holds a character of
    the Cyrillic block, the language returned is ukr, rus or the empty
    string: the given one if it is ukr or rus, and otherwise ukr when the
    entry name has one of the Ukrainian marks, else rus when it has one of
    the Russian marks, else the empty string. The warning is logged in the
    last case only. *)
Theorem cyrillic_names_language
    (entryname initials given_name : str) (lang : option str) :
  has_latin entryname || has_latin initials || has_latin given_name = false ->
  has_cyrillic entryname || has_cyrillic initials || has_cyrillic given_name
  = true ->
  exists lang',
    snd (fst (process_language entryname initials given_name lang))
    = Some lang'
    /\ In lang' [lit "ukr"; lit "rus"; []]
    /\ (lang_in lang [lit "ukr"; lit "rus"] = true -> lang = Some lang')
    /\ (lang_in lang [lit "ukr"; lit "rus"] = false ->
        lang' = if existsb (fun c => mem c ukrainian_marks) entryname
                then lit "ukr"
                else if existsb (fun c => mem c russian_marks) entryname
                     then lit "rus" else [])
    /\ (snd (process_language entryname initials given_name lang) = true
        <-> lang' = []).
Proof.
  intros H C. unfold process_language. rewrite H, C.
  apply orb_false_iff in H. destruct H as [H Hg].
  apply orb_false_iff in H. destruct H as [He Hi].
  rewrite !to_cyrillic_without_latin by assumption.
  destruct (lang_in lang _) eqn:E; cbn [negb].
  - destruct lang as [l|]; [|discriminate]. exists l. cbn [fst snd].
    assert (In l [lit "ukr"; lit "rus"]) as Hl.
    { unfold lang_in in E. apply existsb_exists in E.
      destruct E as [x [Hx E]]. apply str_eqb_eq in E. now subst. }
    split; [reflexivity|]. split; [simpl in *; tauto|].
    split; [reflexivity|]. split; [discriminate|].
    split; [discriminate|]. intros ->.
    destruct Hl as [Hl|[Hl|[]]]; discriminate.
  - destruct (existsb (fun c => mem c ukrainian_marks) entryname) eqn:U;
      cbn [fst snd].
    + exists (lit "ukr"). repeat split; try discriminate; simpl; auto.
    + destruct (existsb (fun c => mem c russian_marks) entryname) eqn:R;
        cbn [fst snd].
      * exists (lit "rus"). repeat split; try discriminate; simpl; auto.
      * exists []. repeat split; try discriminate; simpl; auto.
Qed.

Lemma cyrillic_names_language_witness :
  exists lang',
    snd (fst (process_language [0x428; 0x435; 0x432] [] [] None))
    = Some lang'
    /\ In lang' [lit "ukr"; lit "rus"; []].
Proof.
  destruct (cyrillic_names_language [0x428; 0x435; 0x432] [] [] None
              eq_refl eq_refl) as [l [E [H _]]].
  exists l. split; assumption.
Defined.

Lemma process_language_latin
    (entryname initials given_name : str) (lang : option str) :
  has_latin entryname || has_latin initials || has_latin given_name = true ->
  fst (process_language entryname initials given_name lang)
  = (convert_to_latin entryname, convert_to_latin initials,
     convert_to_latin given_name,
     if lang_in lang [lit "eng"; lit "pol"; lit "fra"] then lang
     else Some (lit "eng")).
Proof.
  intros L. unfold process_language. rewrite L.
  now destruct (lang_in lang _).
Qed.

Lemma process_language_cyrillic
    (entryname initials given_name : str) (lang : option str) :
  has_latin entryname || has_latin initials || has_latin given_name = false ->
  has_cyrillic entryname || has_cyrillic initials || has_cyrillic given_name
  = true ->
  fst (process_language entryname initials given_name lang)
  = (entryname, initials, given_name,
     if lang_in lang [lit "ukr"; lit "rus"] then lang
     else if existsb (fun c => mem c ukrainian_marks) entryname
          then Some (lit "ukr")
          else if existsb (fun c => mem c russian_marks) entryname
               then Some (lit "rus") else Some []).
Proof.
  intros L C. unfold process_language. rewrite L, C.
  apply orb_false_iff in L. destruct L as [L Hg].
  apply orb_false_iff in L. destruct L as [He Hi].
  rewrite !to_cyrillic_without_latin by assumption.
  destruct (lang_in lang _); [reflexivity|]. cbn [negb].
  destruct (existsb (fun c => mem c ukrainian_marks) entryname);
    [reflexivity|].
  now destruct (existsb (fun c => mem c russian_marks) entryname).
Qed.

(** X19. What [process_language] returns, names and language, is returned
    as it is by a second run. *)
Theorem process_language_idempotent
    (entryname initials given_name : str) (lang : option str) :
  let '(e, i, g, l) :=
    fst (process_language entryname initials given_name lang) in
  fst (process_language e i g l)
  = fst (process_language entryname initials given_name lang).
Proof.
  destruct (has_latin entryname || has_latin initials
            || has_latin given_name) eqn:L.
  - rewrite (process_language_latin _ _ _ lang L).
    assert (has_latin (convert_to_latin entryname)
            || has_latin (convert_to_latin initials)
            || has_latin (convert_to_latin given_name) = true) as L'.
    { apply orb_true_iff in L. destruct L as [L|L];
        [apply orb_true_iff in L; destruct L as [L|L]|];
        apply to_latin_keeps_latin in L; rewrite L;
        rewrite ?orb_true_r; reflexivity. }
    rewrite (process_language_latin _ _ _ _ L'), !to_latin_twice.
    destruct (lang_in lang _) eqn:A; [now rewrite A | reflexivity].
  - destruct (has_cyrillic entryname || has_cyrillic initials
              || has_cyrillic given_name) eqn:C.
    + rewrite (process_language_cyrillic _ _ _ lang L C).
      rewrite (process_language_cyrillic _ _ _ _ L C).
      destruct (lang_in lang _) eqn:A; [now rewrite A|].
      destruct (existsb (fun c => mem c ukrainian_marks) entryname) eqn:U;
        [reflexivity|].
      destruct (existsb (fun c => mem c russian_marks) entryname) eqn:R;
        [reflexivity|].
      reflexivity.
    + unfold process_language. rewrite L, C. cbn [fst].
      now rewrite L, C.
Qed.

End LanguageFacts.

(* ================================================================= *)
(** * More on blocking keys, years and links *)

Module DedupMore.
Import Py PyFacts Normalize Dedup.

Lemma scripts_never_share_key_witness :
  blocking_key_udf Packages.soundex Packages.translit Packages.lower
                   [0x428; 0x435; 0x432] (lit "rus")
  <> blocking_key_udf Packages.soundex Packages.translit Packages.lower
                      (lit "Shev") (lit "eng").
Proof.
  apply (BlockingFacts.branches_never_collide Packages.soundex
           Packages.translit Packages.lower
           BlockingFacts.soundex_keeps_first_letter
           0x428 0x53 [0x435; 0x432] (lit "hev") (lit "rus") (lit "eng"));
    reflexivity.
Defined.

Section Keys.

Variable soundex : str -> str.
Variable translit : str -> str -> str.
Variable lower : str -> str.

(** X21. A name in Cyrillic whose language [process_language] could not
    tell (no ASCII letter in the names, a language other than ukr and rus
    given, none of the Ukrainian or Russian marks in the entry name) gets
    the empty string as language and the empty string as blocking key, so
    all such names fall into one block. *)
Theorem unknown_language_key_is_empty
    (entryname initials given_name : str) (lang : option str) :
  has_latin entryname || has_latin initials || has_latin given_name = false ->
  has_cyrillic entryname || has_cyrillic initials || has_cyrillic given_name
  = true ->
  lang_in lang [lit "ukr"; lit "rus"] = false ->
  existsb (fun c => mem c ukrainian_marks) entryname = false ->
  existsb (fun c => mem c russian_marks) entryname = false ->
  process_language entryname initials given_name lang
  = ((entryname, initials, given_name, Some []), true)
  /\ blocking_key_udf soundex translit lower entryname [] = [].
Proof.
  intros L C A U R. split.
  - unfold process_language. rewrite L, C.
    apply orb_false_iff in L. destruct L as [L Hg].
    apply orb_false_iff in L. destruct L as [He Hi].
    rewrite !LanguageFacts.to_cyrillic_without_latin by assumption.
    now rewrite A, U, R.
  - unfold blocking_key_udf. destruct entryname as [|c r]; [reflexivity|].
    apply orb_false_iff in L. destruct L as [L _].
    apply orb_false_iff in L. destruct L as [He _].
    rewrite (LanguageFacts.has_latin_false (c :: r) c He (or_introl eq_refl)).
    reflexivity.
Qed.

End Keys.

Lemma unknown_language_key_is_empty_witness :
  process_language [0x428; 0x435; 0x432] [] [] None
  = (([0x428; 0x435; 0x432], [], [], Some []), true)
  /\ blocking_key_udf Packages.soundex Packages.translit Packages.lower
                      [0x428; 0x435; 0x432] [] = [].
Proof.
  apply (unknown_language_key_is_empty Packages.soundex Packages.translit
           Packages.lower [0x428; 0x435; 0x432] [] [] None); reflexivity.
Defined.

(** ** Years *)

Section Years.

Variable isdecimal : char -> bool.
Hypothesis isdecimal_ascii :
  forall c, c < 128 -> isdecimal c = is_ascii_digit c.

Lemma ascii_digit_decimal (c : char) :
  is_ascii_digit c = true -> isdecimal c = true.
Proof.
  intros H. rewrite isdecimal_ascii; [assumption|].
  unfold is_ascii_digit in H. apply andb_true_iff in H.
  destruct H as [_ H]. apply N.leb_le in H. lia.
Qed.

Lemma year_four_digits (y rest : str) :
  year y ->
  four_digits isdecimal (y ++ rest) = true /\ firstn 4 (y ++ rest) = y.
Proof.
  intros [Hl Hd].
  destruct y as [|a [|b [|c [|d [|e y]]]]]; try discriminate.
  unfold four_digits. cbn [app firstn length Nat.eqb forallb andb] in *.
  split; [|reflexivity].
  repeat (apply andb_true_iff in Hd; destruct Hd as [? Hd]).
  now rewrite !ascii_digit_decimal.
Qed.

Lemma year_no_hyphen (y : str) : year y -> ~ In 0x2D y.
Proof.
  intros [_ H] Hin. rewrite forallb_forall in H. specialize (H _ Hin).
  discriminate.
Qed.

Lemma year_of_death_skip (pre s : str) :
  ~ In 0x2D pre ->
  year_of_death isdecimal (pre ++ s) = year_of_death isdecimal s.
Proof.
  induction pre as [|c pre IH]; intros H; [reflexivity|].
  cbn [app year_of_death].
  replace (c =? 0x2D) with false
    by (symmetry; apply N.eqb_neq; intros ->; apply H; now left).
  cbn [andb]. apply IH. intros X. apply H. now right.
Qed.

Lemma year_of_death_none (s : str) :
  ~ In 0x2D s -> year_of_death isdecimal s = None.
Proof.
  intros H. rewrite <- (app_nil_r s). now rewrite year_of_death_skip.
Qed.

(** X22. On a date that went through [normalize_dates], the year of birth
    is its first four characters, missing for the empty date, and the year
    of death is missing unless the date is a range of nine characters,
    whose last four characters it then is. *)
Theorem years_of_normalized_date (date_text : str) :
  let dates := normalize_dates isdecimal date_text in
  year_of_birth isdecimal dates
  = match dates with [] => None | _ :: _ => Some (firstn 4 dates) end
  /\ year_of_death isdecimal dates
     = if Nat.eqb (length dates) 9 then Some (skipn 5 dates) else None.
Proof.
  cbv zeta.
  pose proof (NormalizeMore.dates_forms isdecimal isdecimal_ascii date_text)
    as F. cbv zeta in F.
  set (dates := normalize_dates isdecimal date_text) in *. clearbody dates.
  assert (forall y rest, year y ->
            year_of_birth isdecimal (y ++ rest)
            = match y ++ rest with
              | [] => None
              | _ :: _ => Some (firstn 4 (y ++ rest))
              end) as B.
  { intros y rest Hy. destruct (year_four_digits y rest Hy) as [H4 _].
    destruct (y ++ rest) as [|c r] eqn:E; [reflexivity|].
    cbn [year_of_birth]. now rewrite H4. }
  destruct F as [->|[Hy|[[y1 [y2 [H1 [H2 ->]]]]|[y [Hy ->]]]]].
  - split; reflexivity.
  - split.
    + rewrite <- (app_nil_r dates). now apply B.
    + rewrite (year_of_death_none dates (year_no_hyphen dates Hy)).
      destruct Hy as [-> _]. reflexivity.
  - split; [now apply B|].
    rewrite (year_of_death_skip y1 _ (year_no_hyphen y1 H1)).
    cbn [app year_of_death]. rewrite N.eqb_refl. cbn [andb].
    destruct (year_four_digits y2 [] H2) as [H4 H5].
    rewrite app_nil_r in H4, H5. rewrite H4, H5.
    rewrite !length_app. destruct H1 as [L1 _]. destruct H2 as [L2 _].
    cbn [length]. rewrite L1, L2. cbn [Nat.add Nat.eqb].
    f_equal. 
    destruct y1 as [|a [|b [|c [|d [|e y1]]]]]; try discriminate.
    reflexivity.
  - split; [now apply B|].
    rewrite (year_of_death_skip y _ (year_no_hyphen y Hy)).
    cbn [year_of_death four_digits firstn length Nat.eqb andb].
    rewrite N.eqb_refl. cbn [andb].
    rewrite length_app. destruct Hy as [-> _]. reflexivity.
Qed.

End Years.

Lemma years_of_normalized_date_witness :
  (forall c, c < 128 -> is_ascii_digit c = is_ascii_digit c)
  /\ year_of_death is_ascii_digit
       (normalize_dates is_ascii_digit (lit "1814 - 1861"))
     = Some (lit "1861").
Proof.
  split; [reflexivity|].
  destruct (years_of_normalized_date is_ascii_digit (fun c _ => eq_refl)
              (lit "1814 - 1861")) as [_ H].
  exact H.
Defined.

End DedupMore.

(* ================================================================= *)
(** * More on link generation *)

Module LinkMore.
Import Py PyFacts Dedup LinkFacts.

Lemma group_links_scope (dom : str) (cid : Z) (cluster : list Row)
    (ls : list MergeLink) (l : MergeLink) :
  group_links dom cid cluster = Some ls -> In l ls ->
  link_main l <> link_other l /\ link_cluster l = cid /\ link_domain l = dom
  /\ exists r1 r2,
       In r1 cluster /\ In r2 cluster
       /\ source_authid r1 = link_main l /\ source_authid r2 = link_other l
       /\ full_name r1 = link_main_name l
       /\ full_name r2 = link_other_name l.
Proof.
  unfold group_links.
  destruct (Nat.ltb (length cluster) 2); [intros [= <-] []|].
  destruct (Nat.ltb (length (unique_members cluster)) 2);
    [intros [= <-] []|].
  destruct (main_record (unique_members cluster)) as [main|] eqn:E;
    [|discriminate].
  intros [= <-] H. apply in_map_iff in H. destruct H as [rec [<- Hrec]].
  apply filter_In in Hrec. destruct Hrec as [Hrec Hne]. cbn.
  split.
  - intros X. apply negb_true_iff in Hne.
    assert (str_eqb (source_authid rec) (source_authid main) = true)
      by (now apply str_eqb_eq).
    congruence.
  - split; [reflexivity|]. split; [reflexivity|]. exists main, rec.
    repeat split; try reflexivity.
    + now apply unique_members_In, main_record_In.
    + now apply unique_members_In.
Qed.

(** X23. A merge link never joins a record with itself, and the two rows
    it is made of are rows of the table from the same server, the same
    cluster and the same language, which is not NULL; the link carries
    their source authority ids, their display names and the id of their
    cluster. *)
Theorem link_joins_two_records_of_one_group
    (df : list Row) (srv_map : list (Z * str)) (srv : Z)
    (links : list MergeLink) (l : MergeLink) :
  In (srv, links) (link_files (generate_links df srv_map)) -> In l links ->
  link_main l <> link_other l
  /\ exists r1 r2 lg,
       In r1 df /\ In r2 df
       /\ source_authid r1 = link_main l /\ source_authid r2 = link_other l
       /\ full_name r1 = link_main_name l
       /\ full_name r2 = link_other_name l
       /\ server_id r1 = srv /\ server_id r2 = srv
       /\ cluster_id r1 = link_cluster l /\ cluster_id r2 = link_cluster l
       /\ lang r1 = Some lg /\ lang r2 = Some lg.
Proof.
  intros H Hl. apply generate_links_inv in H. destruct H as [g [Hg Hs]].
  assert (forall r, In r g -> In r df /\ server_id r = srv) as G.
  { intros r Hr.
    destruct (groupby_rows Z.eqb Z.eqb_eq _ _ _ _ _ r Hg Hr) as [H1 H2].
    split; [assumption | congruence]. }
  destruct (server_links_inv _ _ _ _ _ Hs Hl)
    as [dom [cid [lg [grp [ls [_ [_ [Hgrp [Egl Hls]]]]]]]]].
  destruct (group_links_scope _ _ _ _ _ Egl Hls)
    as [Hne [Hc [_ [r1 [r2 [H1 [H2 [A1 [A2 [N1 N2]]]]]]]]]].
  assert (forall r, In r grp ->
            In r g /\ cluster_id r = cid /\ lang r = Some lg) as Q.
  { intros r Hr.
    destruct (groupby_rows pair_eqb pair_eqb_eq _ _ _ _ _ r Hgrp Hr)
      as [X Y].
    apply filter_In in X. destruct X as [X _].
    split; [assumption|]. destruct (lang r) as [x|]; [|discriminate].
    cbn in Y. injection Y as -> ->. auto. }
  split; [assumption|]. exists r1, r2, lg.
  destruct (Q r1 H1) as [Q1 [Q2 Q3]]. destruct (Q r2 H2) as [Q4 [Q5 Q6]].
  destruct (G r1 Q1) as [G1 G2].
  destruct (G r2 Q4) as [G3 G4].
  repeat split; try assumption; congruence.
Qed.

Lemma link_joins_two_records_of_one_group_witness :
  In (1%Z, [mkLink (lit "lib.example.org") (lit "a1") (lit "a2") 1
                   (lit "Shevchenko T.") (lit "Shevchenko Taras")])
     (link_files
        (generate_links Examples.main_and_variant Examples.one_server))
  /\ lit "a1" <> lit "a2".
Proof.
  assert (In (1%Z, [mkLink (lit "lib.example.org") (lit "a1") (lit "a2") 1
                           (lit "Shevchenko T.") (lit "Shevchenko Taras")])
             (link_files
                (generate_links Examples.main_and_variant
                   Examples.one_server)))
    as H by (left; reflexivity).
  split; [exact H|].
  destruct (link_joins_two_records_of_one_group Examples.main_and_variant
              Examples.one_server 1%Z _ _ H (or_introl eq_refl))
    as [X _].
  exact X.
Defined.

(** X24. A server that has no domain in the table of servers, or an empty
    one, gets no link at all. *)
Theorem server_without_domain_has_no_link
    (df : list Row) (srv_map : list (Z * str)) (srv : Z)
    (links : list MergeLink) :
  In (srv, links) (link_files (generate_links df srv_map)) ->
  srv_map_get srv_map srv = None \/ srv_map_get srv_map srv = Some [] ->
  links = [].
Proof.
  intros H Hd. apply generate_links_inv in H. destruct H as [g [_ Hs]].
  unfold server_links in Hs.
  destruct (filter _ g); [now injection Hs|].
  destruct Hd as [E|E]; rewrite E in Hs; now injection Hs.
Qed.

Lemma server_without_domain_has_no_link_witness :
  srv_map_get [] 1%Z = None
  /\ link_files (generate_links Examples.main_and_variant [])
     = [(1%Z, [])].
Proof.
  split; [reflexivity|].
  assert (exists links,
            link_files (generate_links Examples.main_and_variant [])
            = [(1%Z, links)]) as [links E]
    by (eexists; reflexivity).
  rewrite E. f_equal. f_equal.
  apply (server_without_domain_has_no_link Examples.main_and_variant []
           1%Z links).
  - rewrite E. now left.
  - left. reflexivity.
Defined.

(** ** Which row of a record is kept *)

Lemma str_leb_refl (a : str) : str_leb a a = true.
Proof.
  induction a as [|x a IH]; simpl; [reflexivity|].
  rewrite N.eqb_refl, IH. apply orb_true_r.
Qed.






Section Sorted.

Context {K A : Type}.
Variable leb : K -> K -> bool.
Variable key : A -> K.
Hypothesis leb_total : forall a b, leb a b = true \/ leb b a = true.
Hypothesis leb_trans :
  forall a b c, leb a b = true -> leb b c = true -> leb a c = true.

Abbreviation before := (fun x y : A => leb (key x) (key y) = true).



End Sorted.




End LinkMore.
